(** * A persistent job queue driven by a pool of workers

    Shallow embedding of the job-queue program: the [jobs] table of the
    embedded SQLite store with the statements run against it ([seedJobs],
    [sweepStaleJobs], [claimNextJob], [updateJob]), the process runner
    ([spawnJob]), the worker loop ([createWorkerLoop]) and the entry point
    ([main]) with its signal handlers.

    Conventions of the embedding.
    - The program runs on one JavaScript thread and the store driver is
      synchronous, so every store call runs to completion before anything
      else happens: a store call is a function from table to table, and
      concurrency is the interleaving of whole calls.
    - A point in time is an integer ([Date]): the clock read to the second,
      as SQLite writes it.  [CURRENT_TIMESTAMP], [datetime('now')] and
      [new Date()] read the clock, which every operation takes as its
      argument [now]; the milliseconds [new Date()] adds play no part.  The
      texts SQLite stores compare like the instants they denote.
    - A row holds the decoded value of its columns: the JSON text of [args]
      is the list it encodes, a DATETIME text is the instant it was written
      for, NULL is [None].
    - What JavaScript makes of a column when it reads the row is part of the
      embedding: an INTEGER comes back as a number ([to_number]), and the
      text of [CURRENT_TIMESTAMP], which names no zone, is read by
      [new Date] as a time of the zone the process runs in ([read_local]).

    Two small scripts of the repository are embedded beside it: the
    generator runner of basics.ts ([run], [greet], [suggestFavouriteFood])
    and the [fetch] wrapper that keeps the set [fetchInProgress]. *)

From Stdlib Require Import ZArith Lia.
From stdpp Require Import base option list strings gmap sorting.

Local Open Scope Z_scope.

(** ** The job store *)

Module Store.

Inductive JobStatus := pending | running | done | failed.

#[global] Instance JobStatus_eq_dec : EqDecision JobStatus.
Proof. solve_decision. Defined.

Definition Date := Z.

(** [type Job]; a row of the table ([SerializedJob]) is the same record
    with its columns decoded. *)
Record Job := mkJob {
  id : Z;
  command : string;
  args : list string;
  status : JobStatus;
  started_at : option Date;
  finished_at : option Date;
  stdout : option string;
  stderr : option string
}.

(** The [jobs] table, rows in insertion order. *)
Abbreviation table := (list Job) (only parsing).

(** The outcome of a call that may throw. *)
Inductive completion (A : Type) :=
| Returns (a : A)
| Throws (error : string).
Arguments Returns {A} a.
Arguments Throws {A} error.

(** [UPDATE jobs SET set_ WHERE where_ RETURNING *]: the table after the
    statement and the rows it returns, in table order. *)
Fixpoint update_returning (where_ : Job → bool) (set_ : Job → Job)
    (t : table) : table * list Job :=
  match t with
  | [] => ([], [])
  | r :: t' =>
      let '(u, ret) := update_returning where_ set_ t' in
      if where_ r then (set_ r :: u, set_ r :: ret) else (r :: u, ret)
  end.

(** [useDatabase]: DROP TABLE, CREATE TABLE leave an empty table. *)
Definition useDatabase : table := [].

(** *** seedJobs *)

(** The rowid SQLite gives to an inserted row: one more than the largest
    rowid, 1 in an empty table. *)
Definition next_rowid (t : table) : Z :=
  match t with
  | [] => 1
  | r :: t' => foldr Z.max (id r) (id <$> t') + 1
  end.

(** [INSERT INTO jobs (command, args, status) VALUES (?, json(?), 'pending')];
    the other columns take their default, NULL. *)
Definition insert (t : table) (job : string * list string) : table :=
  t ++ [mkJob (next_rowid t) job.1 job.2 pending None None None None].

Definition jobs : list (string * list string) :=
  [ ("echo", ["Hello, World!"]);
    ("ls", ["-l"]);
    ("sleep", ["5"]);
    ("date", []);
    ("uptime", []) ]%string.

(** [SELECT count( * ) AS c FROM jobs] *)
Definition count (t : table) : Z := Z.of_nat (length t).

(** [count] is always a number, so the guard that throws on any other
    result never fires. *)
Definition seedJobs (db : table) : table :=
  if 0 <? count db then db else foldl insert db jobs.

(** *** sweepStaleJobs *)

(** The seconds of [datetime('now', '-10 seconds')]. *)
Definition stale_threshold : Z := 10.

(** [status = 'running' AND started_at < datetime('now', '-10 seconds')];
    a comparison with NULL selects nothing. *)
Definition is_stale (now : Date) (r : Job) : bool :=
  bool_decide (status r = running) &&
  match started_at r with
  | Some t => t <? now - stale_threshold
  | None => false
  end.

(** [SET status = 'failed', stderr = 'Job timed out'] *)
Definition set_timed_out (r : Job) : Job :=
  mkJob (id r) (command r) (args r) failed (started_at r) (finished_at r)
        (stdout r) (Some "Job timed out"%string).

Definition sweepStaleJobs (now : Date) (db : table) : table :=
  (update_returning (is_stale now) set_timed_out db).1.

(** *** claimNextJob *)

(** [ORDER BY id ASC LIMIT 1] over a column of ids. *)
Definition order_asc_limit_1 (ids : list Z) : option Z :=
  foldr (λ x m, Some (from_option (Z.min x) x m)) None ids.

(** [SELECT id FROM jobs WHERE status = 'pending' ORDER BY id ASC LIMIT 1] *)
Definition oldest_pending (db : table) : option Z :=
  order_asc_limit_1
    (id <$> filter (λ r, status r = pending) db).

(** [WHERE id = (SELECT ...)]; the comparison with an empty subquery is
    NULL and selects nothing. *)
Definition id_is (k : option Z) (r : Job) : bool :=
  match k with
  | Some k => id r =? k
  | None => false
  end.

(** [SET status = 'running', started_at = CURRENT_TIMESTAMP] *)
Definition set_claimed (now : Date) (r : Job) : Job :=
  mkJob (id r) (command r) (args r) running (Some now) (finished_at r)
        (stdout r) (stderr r).

(** The zone of the process.  [CURRENT_TIMESTAMP] writes the UTC time as
    [YYYY-MM-DD HH:MM:SS], a text that names no zone, and [new Date(text)]
    reads such a text as local time: [read_local t] is the instant it
    gives for the text written at the instant [t].  In a process running
    under UTC it is [t] itself. *)
Class Runtime := { read_local : Date → Date }.

Definition utc : Runtime := {| read_local := λ t, t |}.

(** A zone [offset] seconds behind UTC all year round. *)
Definition behind_utc (offset : Z) : Runtime :=
  {| read_local := λ t, t + offset |}.


(** The number the driver hands to JavaScript for an INTEGER column: the
    nearest double, which keeps 53 significant bits, a tie going to the even
    one.  (The integers of SQLite have 64 bits, far below the largest
    double.) *)
Definition to_number (z : Z) : Z :=
  let a := Z.abs z in
  let e := Z.max 0 (Z.log2 a - 52) in
  let q := a / 2 ^ e in
  let r := 2 * (a mod 2 ^ e) in
  let up := (2 ^ e <? r) || ((r =? 2 ^ e) && Z.odd q) in
  Z.sgn z * ((if up then q + 1 else q) * 2 ^ e).

(** An integer that JavaScript holds as it is. *)
Definition exact (z : Z) : Prop := to_number z = z.

#[global] Instance exact_dec z : Decision (exact z).
Proof. unfold exact. apply _. Defined.

(** A table all of whose ids JavaScript holds as they are. *)
Definition exact_ids (db : list Job) : Prop := Forall (λ r, exact (id r)) db.

(** [x || null] on a nullable text. *)
Definition or_null (x : option string) : option string :=
  match x with
  | Some s => if bool_decide (s = ""%string) then None else Some s
  | None => None
  end.

(** The job built from the returned row: [...job] copies the columns as
    JavaScript has them, the [id] a number; [started_at] is
    [new Date(job.started_at)] on the text of [CURRENT_TIMESTAMP], read as
    local time; [finished_at] is [new Date] on the ISO text [updateJob]
    wrote, which names its zone and gives back the instant; [stdout] and
    [stderr] go through [|| null]. *)
Definition deserialize {zone : Runtime} (r : Job) : Job :=
  mkJob (to_number (id r)) (command r) (args r) (status r)
        (read_local <$> started_at r) (finished_at r)
        (or_null (stdout r)) (or_null (stderr r)).

(** The transaction of [claimNextJob]: the claimed job, if any, and the
    table it leaves. [.get()] takes the first returned row. *)
Definition claimNextJob {zone : Runtime} (now : Date) (db : table)
    : option Job * table :=
  let '(db', rows) :=
    update_returning (id_is (oldest_pending db)) (set_claimed now) db in
  (deserialize <$> head rows, db').

(** *** updateJob *)

(** [SET status = :status, finished_at = :finished_at, stdout = :stdout,
    stderr = :stderr] *)
Definition set_result (job r : Job) : Job :=
  mkJob (id r) (command r) (args r) (status job) (started_at r)
        (finished_at job) (stdout job) (stderr job).

(** The transaction of [updateJob]; it returns [undefined] whatever the
    statement matched. *)
Definition updateJob (db : table) (job : Job) : completion unit * table :=
  (Returns (),
   (update_returning (λ r, id r =? id job) (set_result job) db).1).

(** *** The lifecycle of a row *)

(** [started_at] is set if and only if the row is not [pending];
    [finished_at] is set if and only if the row is [done] or [failed]. *)
Definition row_ok (r : Job) : Prop :=
  (started_at r ≠ None ↔ status r ≠ pending) ∧
  (finished_at r ≠ None ↔ status r = done ∨ status r = failed).

#[global] Instance row_ok_dec r : Decision (row_ok r).
Proof. unfold row_ok. apply _. Defined.

(** The number of rows waiting to be claimed. *)
Definition pending_rows (db : table) : nat :=
  length (filter (λ r, status r = pending) db).

(** A table in good order while the jobs of the ids [flights] are in the
    hands of workers: ids are unique (the primary key), every row keeps the
    two equivalences, each job in flight has its row, [running], and every
    id is a number JavaScript holds as it is. *)
Definition store_ok (flights : list Z) (db : table) : Prop :=
  NoDup (id <$> db) ∧
  Forall row_ok db ∧
  (∀ k, k ∈ flights → ∃ r, r ∈ db ∧ id r = k ∧ status r = running) ∧
  exact_ids db.

End Store.

(** ** The process runner *)

Module Runner.
Import Store.

(** What the child process emits. *)
Inductive child_event :=
| StdoutData (data : string)
| StderrData (data : string)
| Close (code : option Z)
| Error (error : string).

(** The variables the listeners of [spawnJob] close over. *)
Record child := mkChild {
  c_job : Job;
  c_stdout : string;
  c_stderr : string
}.

(** [childProcess.spawn(job.command, job.args)] with both buffers empty. *)
Definition spawn (job : Job) : child := mkChild job "" "".

(** [child.stdout.on("data", ...)] *)
Definition on_stdout_data (data : string) (c : child) : child :=
  mkChild (c_job c) (c_stdout c +:+ data) (c_stderr c).

(** [child.stderr.on("data", ...)] *)
Definition on_stderr_data (data : string) (c : child) : child :=
  mkChild (c_job c) (c_stdout c) (c_stderr c +:+ data).

(** [code === 0 ? "done" : "failed"]; a child ended by a signal closes
    with the code [null]. *)
Definition status_of_code (code : option Z) : JobStatus :=
  match code with
  | Some 0 => done
  | _ => failed
  end.

(** [child.on("close", ...)]: the job [resolve] is called with. *)
Definition on_close (code : option Z) (now : Date) (c : child) : Job :=
  let job := c_job c in
  mkJob (id job) (command job) (args job) (status_of_code code)
        (started_at job) (Some now) (Some (c_stdout c)) (Some (c_stderr c)).

(** The effect of one emitted event on the pending action; [now] is the
    time it is emitted at. *)
Inductive emitted :=
| Waiting (c : child)
| Resolved (job : Job)
| Unhandled (error : string).

(** [spawnJob] registers listeners for "data" on both streams and for
    "close"; an "error" event finds no listener, and an emitter with no
    "error" listener throws the error at whoever emitted it. *)
Definition emit (now : Date) (ev : child_event) (c : child) : emitted :=
  match ev with
  | StdoutData data => Waiting (on_stdout_data data c)
  | StderrData data => Waiting (on_stderr_data data c)
  | Close code => Resolved (on_close code now c)
  | Error error => Unhandled error
  end.

(** [spawnJob(job)] run against the events of its child, oldest first:
    the action stays pending until an event settles it. *)
Fixpoint run_child (evs : list (Date * child_event)) (c : child) : emitted :=
  match evs with
  | [] => Waiting c
  | (now, ev) :: evs' =>
      match emit now ev c with
      | Waiting c' => run_child evs' c'
      | settled => settled
      end
  end.

Definition spawnJob (job : Job) (evs : list (Date * child_event)) : emitted :=
  run_child evs (spawn job).

(** The closure after a run of events none of which settles the action. *)
Definition feed (c : child) (evs : list (Date * child_event)) : child :=
  foldl (λ c e, match e.2 with
                | StdoutData data => on_stdout_data data c
                | StderrData data => on_stderr_data data c
                | _ => c
                end) c evs.

(** The "data" events, and the text a run of events writes to each stream. *)
Definition is_data (ev : child_event) : bool :=
  match ev with
  | StdoutData _ | StderrData _ => true
  | _ => false
  end.

Definition stdout_text (evs : list (Date * child_event)) : string :=
  foldl (λ acc e, match e.2 with StdoutData data => acc +:+ data | _ => acc end)
        ""%string evs.

Definition stderr_text (evs : list (Date * child_event)) : string :=
  foldl (λ acc e, match e.2 with StderrData data => acc +:+ data | _ => acc end)
        ""%string evs.

(** The two texts of the job an action resolved with. *)
Definition output (e : emitted) : option (string * string) :=
  match e with
  | Resolved job =>
      match stdout job, stderr job with
      | Some out, Some err => Some (out, err)
      | _, _ => None
      end
  | _ => None
  end.

End Runner.

(** ** Calls against the store, in any order *)

Module Calls.
Import Store Runner.

(** One call of a worker or of the orchestrator against the store.
    [WriteBack] is the recording step of the worker loop: [updateJob] on
    what [spawnJob] resolved with. *)
Inductive call :=
| Seed
| SweepStale (now : Date)
| ClaimNext (now : Date)
| WriteBack (c : child) (code : option Z) (now : Date)
| Update (job : Job).

(** The table after the call and what a claim returned. *)
Definition exec {zone : Runtime} (db : table) (c : call) : option Job * table :=
  match c with
  | Seed => (None, seedJobs db)
  | SweepStale now => (None, sweepStaleJobs now db)
  | ClaimNext now => claimNextJob now db
  | WriteBack ch code now => (None, (updateJob db (on_close code now ch)).2)
  | Update job => (None, (updateJob db job).2)
  end.

(** The jobs the claims of a run of calls returned, oldest first, and the
    final table. *)
Fixpoint run {zone : Runtime} (db : table) (cs : list call) : list Job * table :=
  match cs with
  | [] => ([], db)
  | c :: cs' =>
      let '(claimed, db') := exec db c in
      let '(rest, db'') := run db' cs' in
      (from_option (λ j, [j]) [] claimed ++ rest, db'')
  end.

(** A run that never writes an arbitrary job: its updates are the
    write-backs of the worker loop. *)
Definition is_worker_call (c : call) : bool :=
  match c with
  | Update _ => false
  | _ => true
  end.


End Calls.

(** ** The worker loop and the entry point *)

Module Pool.
Import Store Runner.

(** The flag the worker loop tests; the handler that would set it is
    disabled, and the flag is a constant. *)
Definition isShuttingDown : bool := false.

Inductive signal := SIGINT | SIGTERM.

(** [type Exit] *)
Record Exit := mkExit {
  exit_status : Z;
  exit_message : option string;
  exit_signal : option string;
  exit_error : option string
}.

(** The two handlers of [main]: each resolves the action at once. *)
Definition interrupt (sg : signal) : Exit :=
  match sg with
  | SIGINT => mkExit 130 None (Some "SIGINT"%string) None
  | SIGTERM => mkExit 143 None (Some "SIGTERM"%string) None
  end.

(** [exit(status, message)] *)
Definition exit (status : Z) (message : option string) : Exit :=
  mkExit status message None None.

(** The [catch] of [main]. *)
Definition caught (error : string) : Exit :=
  mkExit 1 None None (Some error).

(** A worker between two events: suspended in [spawnJob], out of its
    loop, or halted with its child killed by the teardown of the action. *)
Inductive worker :=
| Running (c : child)
| Stopped
| Killed (job : Job).

Inductive fate :=
| Live
| Exited (e : Exit)
| Uncaught (error : string).

Record system := mkSystem {
  db : table;
  pool : list worker;
  outcome : fate
}.

(** What reaches the process from outside: a signal, an event of the
    child of worker [w], or an exception raised inside the body (the store
    driver failing, say). *)
Inductive event :=
| Signal (sg : signal)
| Child (w : nat) (ev : child_event)
| Raise (error : string).

(** One turn of [createWorkerLoop] from the head of the loop to its next
    suspension. *)
Definition createWorkerLoop {zone : Runtime} (now : Date) (db : table)
    : worker * table :=
  if isShuttingDown then (Stopped, db)
  else
    match claimNextJob now db with
    | (None, db') => (Stopped, db')
    | (Some job, db') => (Running (spawn job), db')
    end.

Definition is_stopped (w : worker) : bool :=
  match w with
  | Stopped => true
  | _ => false
  end.

(** Halting the body: the teardown of every pending [spawnJob] kills its
    child. *)
Definition halt (w : worker) : worker :=
  match w with
  | Running c => Killed (c_job c)
  | w => w
  end.

(** [resolve(e)] on the action of [main]: the body is halted and the
    process exits with [e.status]. *)
Definition resolve (e : Exit) (s : system) : system :=
  mkSystem (db s) (halt <$> pool s) (Exited e).

(** [all(workers)] has returned once every worker has left its loop; the
    body then returns and [main] calls [exit(0)]. *)
Definition settle (s : system) : system :=
  if forallb is_stopped (pool s) then resolve (exit 0 None) s else s.

(** [all(workers)] starts the workers one after the other; each runs to its
    first suspension. *)
Definition start_worker {zone : Runtime} (now : Date) (s : system) (_ : nat)
    : system :=
  let '(w, db') := createWorkerLoop now (db s) in
  mkSystem db' (pool s ++ [w]) (outcome s).

(** [main] with the body of the program, up to the first suspension: the
    store is opened with an empty table, swept and seeded, and three
    workers are started. *)
Definition main {zone : Runtime} (now : Date) : system :=
  let db0 := useDatabase in
  let db1 := sweepStaleJobs now db0 in
  let db2 := seedJobs db1 in
  settle (foldl (start_worker now) (mkSystem db2 [] Live) (seq 0 3)).

(** The reaction to one event arriving at time [now].  A worker whose
    [spawnJob] is resolved writes the job back and goes round its loop in
    the same turn, up to its next suspension.  Once the action of [main] is
    resolved the process has exited, and nothing has an effect any more. *)
Definition step {zone : Runtime} (s : system) (e : Date * event) : system :=
  let '(now, e) := e in
  match outcome s with
  | Live =>
      match e with
      | Signal sg => resolve (interrupt sg) s
      | Raise error => resolve (caught error) s
      | Child w ev =>
          match pool s !! w with
          | Some (Running c) =>
              match emit now ev c with
              | Waiting c' =>
                  mkSystem (db s) (<[w := Running c']> (pool s)) Live
              | Resolved updatedJob =>
                  let db1 := (updateJob (db s) updatedJob).2 in
                  let '(w', db2) := createWorkerLoop now db1 in
                  settle (mkSystem db2 (<[w := w']> (pool s)) Live)
              | Unhandled error =>
                  mkSystem (db s) (pool s) (Uncaught error)
              end
          | _ => s
          end
      end
  | _ => s
  end.

Definition steps {zone : Runtime} (s : system) (es : list (Date * event))
    : system :=
  foldl step s es.

(** The status [process.exit] is called with. *)
Definition process_status (s : system) : option Z :=
  match outcome s with
  | Exited e => Some (exit_status e)
  | _ => None
  end.

(** The status the process ends with: the one [process.exit] is called
    with, or the 1 the runtime exits with when an exception nobody caught
    ends the process; a live process has none. *)
Definition exit_code (s : system) : option Z :=
  match outcome s with
  | Live => None
  | Exited e => Some (exit_status e)
  | Uncaught _ => Some 1
  end.

(** The jobs whose child is running. *)
Definition flights (ws : list worker) : list Job :=
  omap (λ w, match w with Running c => Some (c_job c) | _ => None end) ws.

Definition in_flight (s : system) : list Job := flights (pool s).

Definition is_killed (w : worker) : bool :=
  match w with
  | Killed _ => true
  | _ => false
  end.

(** What is left to do: the rows to claim and the children to wait for. *)
Definition remaining (s : system) : nat :=
  (pending_rows (db s) + length (in_flight s))%nat.

(** The invariant of the program: the table is in good order for the jobs
    in flight, no two workers hold the same job, and a live process has no
    killed child and at least one child to wait for. *)
Record sound (s : system) : Prop := mkSound {
  sound_store : store_ok (id <$> in_flight s) (db s);
  sound_apart : NoDup (id <$> in_flight s);
  sound_live :
    outcome s = Live →
    Forall (λ w, ¬ is_killed w) (pool s) ∧ in_flight s ≠ []
}.

(** The states the program passes through. *)
Definition reachable {zone : Runtime} (s : system) : Prop :=
  ∃ now es, s = steps (main now) es.

(** A run with no signal and no error: its events are the data and the
    close events of the children. *)
Definition is_clean (e : Date * event) : bool :=
  match e.2 with
  | Child _ ev => match ev with Error _ => false | _ => true end
  | _ => false
  end.

(** The event is the close of a child that is in flight when it arrives. *)
Definition settles (s : system) (e : Date * event) : bool :=
  match outcome s, e.2 with
  | Live, Child w (Close _) =>
      match pool s !! w with
      | Some (Running _) => true
      | _ => false
      end
  | _, _ => false
  end.

(** The number of children a run of events sees close. *)
Fixpoint closed {zone : Runtime} (s : system) (es : list (Date * event))
    : nat :=
  match es with
  | [] => 0
  | e :: es' => (if settles s e then 1 else 0) + closed (step s e) es'
  end.

End Pool.

(** ** The behaviour the specification words

    Three sentences of the specification, stated over the embedding as they
    are worded, to be compared with what the code does. *)

Module Stated.
Import Store Runner Pool.

(** [update] fails with a NotFound condition whenever no row has the id of
    the job. *)
Definition update_fails_when_row_missing : Prop :=
  ∀ (db : table) job,
    (∀ r, r ∈ db → id r ≠ id job) →
    ∃ error, (updateJob db job).1 = Throws error.

(** A command that cannot be spawned is a failed outcome: the job's row is
    recorded [failed] with the spawn error in [stderr], nothing reaches the
    process and the pool goes on. *)
Definition spawn_failure_is_failed_outcome {zone : Runtime} : Prop :=
  ∀ s now w c error,
    reachable s → outcome s = Live → pool s !! w = Some (Running c) →
    let s' := step s (now, Child w (Error error)) in
    outcome s' = Live ∧
    ∃ r, r ∈ db s' ∧ id r = id (c_job c) ∧
         status r = failed ∧ stderr r ≠ None.

(** The first signal asks for a graceful stop: the process lives on and the
    jobs in flight go on to finish; only a second signal ends the process,
    with a non-zero status. *)
Definition first_signal_is_graceful {zone : Runtime} : Prop :=
  ∀ s now sg,
    reachable s → outcome s = Live →
    let s' := step s (now, Signal sg) in
    outcome s' = Live ∧ in_flight s' = in_flight s ∧
    ∀ now' sg', ∃ e,
      outcome (step s' (now', Signal sg')) = Exited e ∧ exit_status e ≠ 0.

End Stated.

(** ** What the claims leave aside: bookkeeping of the pool *)

Module Ledger.
Import Store Runner Pool.

(** The columns no statement assigns after the INSERT. *)
Definition key_columns (r : Job) : Z * string * list string :=
  (id r, command r, args r).

(** Every pending row has an id above [m], in a table that holds a row. *)
Definition above (m : Z) (db : table) : Prop :=
  db ≠ [] ∧ ∀ r, r ∈ db → status r = pending → m < id r.

(** Every [running] row belongs to a job in flight. *)
Definition owned (s : system) : Prop :=
  ∀ r, r ∈ db s → status r = running → id r ∈ id <$> in_flight s.

(** A row out of the runner carries both captured streams. *)
Definition recorded (r : Job) : Prop :=
  status r = done ∨ status r = failed → stdout r ≠ None ∧ stderr r ≠ None.

(** The books of the pool: while the process lives every [running] row is
    owned; once a worker has stopped nothing is pending; finished rows are
    recorded. *)
Record tidy (s : system) : Prop := mkTidy {
  tidy_owned : outcome s = Live → owned s;
  tidy_drained : Stopped ∈ pool s → pending_rows (db s) = 0%nat;
  tidy_recorded : Forall recorded (db s);
  tidy_finished :
    outcome s = Exited (exit 0 None) →
    ∀ r, r ∈ db s → status r = done ∨ status r = failed
}.

End Ledger.

(** ** The signal listeners of [main] *)

Module Handlers.
Import Pool.

(** A function registered on [process]: one of the two closures of
    [interrupt], named by its key, or a function of somebody else. *)
Inductive listener :=
| Interrupt (key : signal)
| Foreign (name : nat).

#[global] Instance signal_eq_dec : EqDecision signal.
Proof. solve_decision. Defined.

#[global] Instance listener_eq_dec : EqDecision listener.
Proof. solve_decision. Defined.

(** The listeners of [process], oldest first, each with its event. *)
Abbreviation registry := (list (signal * listener)) (only parsing).

(** [process.on(ev, fn)] appends. *)
Definition process_on (ev : signal) (fn : listener) (ls : registry)
    : registry :=
  ls ++ [(ev, fn)].

(** [process.off(ev, fn)] removes the most recently added instance of [fn]
    among the listeners of [ev], and nothing when there is none. *)
Fixpoint remove_newest (x : signal * listener) (ls : registry)
    : option registry :=
  match ls with
  | [] => None
  | y :: ls' =>
      match remove_newest x ls' with
      | Some ls'' => Some (y :: ls'')
      | None => if decide (x = y) then Some ls' else None
      end
  end.

Definition process_off (ev : signal) (fn : listener) (ls : registry)
    : registry :=
  from_option id ls (remove_newest (ev, fn) ls).

(** The two [process.on] calls before the body ... *)
Definition register (ls : registry) : registry :=
  process_on SIGTERM (Interrupt SIGTERM)
    (process_on SIGINT (Interrupt SIGINT) ls).

(** ... and the two [process.off] calls of the [finally] after it, as they
    are written: the second names [interrupt.SIGINT] for SIGTERM. *)
Definition unregister (ls : registry) : registry :=
  process_off SIGTERM (Interrupt SIGINT)
    (process_off SIGINT (Interrupt SIGINT) ls).

(** The functions a delivery of [sg] calls. *)
Definition listening (sg : signal) (ls : registry) : list listener :=
  (filter (λ l, l.1 = sg) ls).*2.

(** The listeners other code has registered before [main] runs; the two
    closures of [interrupt] are made by the call of [main] itself, so none
    of them is among these. *)
Definition foreign (ls : list (signal * nat)) : registry :=
  prod_map id Foreign <$> ls.

End Handlers.

(** ** The generator runner of basics.ts *)

Module Generators.
Import Store.

(** A JavaScript value by what the generators of the script do with it: a
    string, or any other value, which is told apart only by what a template
    literal makes of it, a text or the TypeError of a value that has no
    primitive form (an object parsed with a [toString] entry, say). *)
Inductive value :=
| VString (s : string)
| VOther (rendering : completion string).

(** [String(v)], as a template literal and [JSON.parse] apply it. *)
Definition to_string (v : value) : completion string :=
  match v with
  | VString s => Returns s
  | VOther rendering => rendering
  end.

(** What [run] sends into a suspended generator: [gen.next(v)] or
    [gen.throw(e)]. *)
Inductive command_ :=
| Next (v : value)
| Throw (error : string).

(** A generator object by what its next step is: it returns, it throws, or
    it is suspended at a [yield] of a promise or of another generator, to be
    resumed by a command.  A promise is the outcome it settles with. *)
Inductive StringGenerator :=
| Return (v : value)
| Raise (error : string)
| YieldPromise (p : completion value) (resume : command_ → StringGenerator)
| YieldGenerator (g : StringGenerator) (resume : command_ → StringGenerator).

(** [run(gen)]: await what the generator yields, a promise or the run of a
    nested generator, and send the value in, or throw the error in.  What
    the generator throws while it runs rejects the promise of [run]. *)
Fixpoint run (gen : StringGenerator) : completion value :=
  match gen with
  | Return v => Returns v
  | Raise error => Throws error
  | YieldPromise p resume =>
      run (resume match p with
                  | Returns v => Next v
                  | Throws e => Throw e
                  end)
  | YieldGenerator g resume =>
      run (resume match run g with
                  | Returns v => Next v
                  | Throws e => Throw e
                  end)
  end.

Definition dquote : string := String (Ascii.ascii_of_nat 34) "".

Definition prompt_text (name : string) : string :=
  "You have just met a person with the name " +:+ dquote +:+ name +:+ dquote
  +:+ ". What might be their favourite food? Be creative! Respond ONLY with the name of the food in quotes and nothing else. For example '"
  +:+ dquote +:+ "sundried tomatoes" +:+ dquote +:+ "'.".

Definition greeting (name food : string) : string :=
  "Hello " +:+ name +:+ ", would you like to try some " +:+ food +:+ "?".

Section Greet.

(** [llm.prompt], by the outcome of the external command (its trimmed
    output, or its failure), and [JSON.parse] on a text, by the value it
    parses to or the error it throws. *)
Variable llm_prompt : string → completion string.
Variable JSON_parse : string → completion value.

(** [suggestFavouriteFood]: no handler around its [yield], so an error
    thrown in ends it; [JSON.parse] takes the text of what is sent in. *)
Definition suggestFavouriteFood (name : string) : StringGenerator :=
  YieldPromise
    match llm_prompt (prompt_text name) with
    | Returns reply => Returns (VString reply)
    | Throws error => Throws error
    end
    (λ c, match c with
          | Next result =>
              match to_string result with
              | Returns text =>
                  match JSON_parse text with
                  | Returns food => Return food
                  | Throws error => Raise error
                  end
              | Throws error => Raise error
              end
          | Throw error => Raise error
          end).

(** [greet]: the [yield] sits in a [try] whose [catch] settles for pizza;
    the template literal comes after the [try], so what it throws on a
    [food] it cannot render is thrown by the generator. *)
Definition greet (name : string) : StringGenerator :=
  YieldGenerator (suggestFavouriteFood name)
    (λ c, let food := match c with
                      | Next food => food
                      | Throw _ => VString "pizza"
                      end in
          match to_string food with
          | Returns text => Return (VString (greeting name text))
          | Throws error => Raise error
          end).

End Greet.

End Generators.

(** ** The fetch wrapper of the request-tracking script *)

Module Fetching.

(** The set [fetchInProgress], and the calls of [fetch] suspended at their
    [await], newest first. *)
Record tracker := mkTracker {
  fetchInProgress : gset string;
  awaiting : list string
}.

Inductive fetch_event :=
| Call (url : string)
| Settle (url : string).

(** Remove one occurrence. *)
Fixpoint remove_one (url : string) (l : list string) : list string :=
  match l with
  | [] => []
  | x :: l' => if decide (x = url) then l' else x :: remove_one url l'
  end.

(** [fetch(url)] adds the url and awaits; when the awaited request settles,
    fulfilled or rejected, the [finally] deletes the url.  A settlement for
    which no call is waiting does not happen. *)
Definition step (t : tracker) (e : fetch_event) : tracker :=
  match e with
  | Call url => mkTracker ({[url]} ∪ fetchInProgress t) (url :: awaiting t)
  | Settle url =>
      if decide (url ∈ awaiting t)
      then mkTracker (fetchInProgress t ∖ {[url]}) (remove_one url (awaiting t))
      else t
  end.

Definition steps (t : tracker) (es : list fetch_event) : tracker :=
  foldl step t es.

Definition start : tracker := mkTracker ∅ [].

(** A run that never has two requests for one url in flight. *)
Fixpoint one_at_a_time (t : tracker) (es : list fetch_event) : Prop :=
  match es with
  | [] => True
  | e :: es' =>
      match e with
      | Call url => url ∉ awaiting t
      | Settle _ => True
      end ∧ one_at_a_time (step t e) es'
  end.

End Fetching.

(** * Properties of the store *)

Module StoreFacts.
Import Store.

Section AnyZone.

(** Whatever zone the process runs in. *)
Context {zone : Runtime}.

(** ** The UPDATE statement *)

Lemma update_returning_table where_ set_ t :
  (update_returning where_ set_ t).1
  = (λ r, if where_ r then set_ r else r) <$> t.
Proof.
  induction t as [|r t IH]; [done|]. cbn [update_returning].
  destruct (update_returning where_ set_ t) as [u ret].
  rewrite fmap_cons, <- IH. by destruct (where_ r).
Qed.

Lemma update_returning_rows where_ set_ t :
  (update_returning where_ set_ t).2 = set_ <$> filter (λ r, where_ r) t.
Proof.
  induction t as [|r t IH]; [done|]. cbn [update_returning].
  destruct (update_returning where_ set_ t) as [u ret].
  cbn [snd] in IH. destruct (where_ r) eqn:E.
  - rewrite filter_cons_True by by rewrite E. by rewrite fmap_cons, <- IH.
  - rewrite filter_cons_False; [done|]. rewrite E. intros [].
Qed.

Lemma update_returning_eq where_ set_ t :
  update_returning where_ set_ t
  = ((λ r, if where_ r then set_ r else r) <$> t,
     set_ <$> filter (λ r, where_ r) t).
Proof.
  rewrite <- update_returning_table, <- update_returning_rows.
  by destruct (update_returning where_ set_ t).
Qed.

(** An UPDATE whose WHERE selects no row leaves the table as it is. *)
Lemma update_nothing where_ set_ (t : table) :
  (∀ r, r ∈ t → where_ r = false) →
  (λ r, if where_ r then set_ r else r) <$> t = t.
Proof.
  intros H. induction t as [|r t IH]; [done|]. rewrite fmap_cons.
  rewrite (H r) by left. f_equal. apply IH. intros. apply H. by right.
Qed.

(** ** ORDER BY id ASC LIMIT 1 *)

Lemma order_asc_limit_1_None ids : order_asc_limit_1 ids = None ↔ ids = [].
Proof. by destruct ids. Qed.

Lemma order_asc_limit_1_Some ids k :
  order_asc_limit_1 ids = Some k → k ∈ ids ∧ ∀ x, x ∈ ids → k ≤ x.
Proof.
  revert k. induction ids as [|x ids IH]; intros k; [done|].
  simpl. fold (order_asc_limit_1 ids).
  destruct (order_asc_limit_1 ids) as [m|] eqn:E; simpl; intros [= <-].
  - destruct (IH m eq_refl) as [Hin Hmin]. split.
    + destruct (Z.min_spec x m) as [[_ ->]|[_ ->]]; [left | by right].
    + intros y [->|Hy]%elem_of_cons; [lia|]. specialize (Hmin y Hy). lia.
  - apply order_asc_limit_1_None in E as ->. split; [left|].
    intros y [->|Hy]%elem_of_cons; [lia|]. by apply elem_of_nil in Hy.
Qed.

Lemma oldest_pending_None db :
  oldest_pending db = None ↔ ∀ r, r ∈ db → status r ≠ pending.
Proof.
  unfold oldest_pending. rewrite order_asc_limit_1_None. split.
  - intros H%fmap_nil_inv r Hr Hp.
    by apply (filter_nil_not_elem_of _ _ r H).
  - intros H. induction db as [|r db IH]; [done|].
    rewrite filter_cons_False by (apply H; left).
    apply IH. intros r' Hr'. apply H. by right.
Qed.

Lemma oldest_pending_Some db k :
  oldest_pending db = Some k →
  (∃ r, r ∈ db ∧ status r = pending ∧ id r = k) ∧
  (∀ r, r ∈ db → status r = pending → k ≤ id r).
Proof.
  unfold oldest_pending. intros [Hin Hmin]%order_asc_limit_1_Some. split.
  - apply list_elem_of_fmap in Hin as (r & -> & [Hp Hr]%list_elem_of_filter).
    by exists r.
  - intros r Hr Hp. apply Hmin, list_elem_of_fmap. exists r. split; [done|].
    by apply list_elem_of_filter.
Qed.

(** ** claimNextJob *)

Lemma claimNextJob_eq now db :
  claimNextJob now db
  = (deserialize <$>
       head (set_claimed now <$> filter (λ r, id_is (oldest_pending db) r) db),
     (λ r, if id_is (oldest_pending db) r then set_claimed now r else r)
       <$> db).
Proof. unfold claimNextJob. by rewrite update_returning_eq. Qed.

Lemma claimNextJob_None now db :
  oldest_pending db = None → claimNextJob now db = (None, db).
Proof.
  intros E. rewrite claimNextJob_eq, E.
  rewrite update_nothing by done.
  assert (filter (λ r, id_is None r) db = []) as ->; [|done].
  clear E. induction db as [|r db IH]; [done|].
  rewrite filter_cons_False; [done|intros []].
Qed.

Lemma claimNextJob_Some now db k :
  oldest_pending db = Some k →
  ∃ r, r ∈ db ∧ id r = k ∧
    claimNextJob now db
    = (Some (deserialize (set_claimed now r)),
       (λ r, if id r =? k then set_claimed now r else r) <$> db).
Proof.
  intros E. rewrite claimNextJob_eq, E. cbn [id_is].
  destruct (oldest_pending_Some _ _ E) as [(p & Hp & _ & Hk) _].
  destruct (filter (λ r, id r =? k) db) as [|r rs] eqn:F.
  - exfalso. apply (filter_nil_not_elem_of _ _ p F); [|done].
    by apply Is_true_true, Z.eqb_eq.
  - exists r.
    assert (r ∈ filter (λ r, id r =? k) db) as [Hr ?]%list_elem_of_filter
      by (rewrite F; left).
    by apply Is_true_true, Z.eqb_eq in Hr.
Qed.

(** Under the primary key, rows are told apart by their id. *)
Lemma primary_key (db : table) r1 r2 :
  NoDup (id <$> db) → r1 ∈ db → r2 ∈ db → id r1 = id r2 → r1 = r2.
Proof.
  induction db as [|r db IH]; intros Hnd H1 H2 E.
  - by apply elem_of_nil in H1.
  - rewrite fmap_cons in Hnd. apply NoDup_cons in Hnd as [Hr Hnd].
    apply elem_of_cons in H1 as [->|H1], H2 as [->|H2]; [done|..].
    + destruct Hr. rewrite E. by apply list_elem_of_fmap_2.
    + destruct Hr. rewrite <- E. by apply list_elem_of_fmap_2.
    + by apply IH.
Qed.

(** Under the primary key, an UPDATE by id rewrites one row in place. *)
Lemma update_by_id set_ (l1 l2 : table) r :
  NoDup (id <$> (l1 ++ r :: l2)) →
  (λ x, if id x =? id r then set_ x else x) <$> (l1 ++ r :: l2)
  = l1 ++ set_ r :: l2.
Proof.
  intros Hnd. rewrite fmap_app, fmap_cons, Z.eqb_refl.
  assert (∀ x, x ∈ l1 ++ l2 → (id x =? id r) = false) as Hne.
  { intros x Hx. apply Z.eqb_neq. intros E.
    rewrite fmap_app, fmap_cons in Hnd.
    apply NoDup_app in Hnd as (_ & Hdisj & [Hr _]%NoDup_cons).
    apply elem_of_app in Hx as [Hx|Hx].
    - apply (Hdisj (id x)); [by apply list_elem_of_fmap_2|].
      rewrite E. left.
    - apply Hr. rewrite <- E. by apply list_elem_of_fmap_2. }
  rewrite !update_nothing; [done|..]; intros x Hx; apply Hne, elem_of_app;
    auto.
Qed.

(** ** Ids as numbers *)


(** Above it ids run together: the two below come back as one number. *)
Lemma to_number_rounds : to_number (2 ^ 53 + 1) = to_number (2 ^ 53).
Proof. reflexivity. Qed.

Lemma exact_ids_update where_ set_ (t : table) :
  (∀ r, id (set_ r) = id r) →
  exact_ids t → exact_ids (update_returning where_ set_ t).1.
Proof.
  intros Hid. rewrite update_returning_table. unfold exact_ids.
  rewrite Forall_fmap. intros H. eapply Forall_impl; [exact H|].
  intros r Hr. cbn. destruct (where_ r); [by rewrite Hid|done].
Qed.

Lemma exact_ids_seedJobs db : exact_ids db → exact_ids (seedJobs db).
Proof.
  intros H. unfold seedJobs, count. destruct db as [|r db].
  - apply (bool_decide_unpack _). by vm_compute.
  - by rewrite (proj2 (Z.ltb_lt _ _)) by (cbn [length]; lia).
Qed.

Lemma exact_ids_sweepStaleJobs now db :
  exact_ids db → exact_ids (sweepStaleJobs now db).
Proof. by apply exact_ids_update. Qed.

Lemma exact_ids_claimNextJob now db :
  exact_ids db → exact_ids (claimNextJob now db).2.
Proof.
  intros H. unfold claimNextJob.
  pose proof (exact_ids_update (id_is (oldest_pending db)) (set_claimed now)
                db (λ _, eq_refl) H) as H'.
  by destruct (update_returning _ _ db).
Qed.

Lemma exact_ids_updateJob db job :
  exact_ids db → exact_ids (updateJob db job).2.
Proof. by apply exact_ids_update. Qed.

(** The job a claim returns carries the id of its row when the ids of the
    table are exact. *)
Lemma exact_ids_elem (db : table) r :
  exact_ids db → r ∈ db → to_number (id r) = id r.
Proof.
  unfold exact_ids. rewrite Forall_forall. intros H Hr. by apply (H r).
Qed.

End AnyZone.

End StoreFacts.

(** * Properties of runs of calls *)

Module CallFacts.
Import Store Runner Calls StoreFacts.

Section AnyZone.

(** Whatever zone the process runs in. *)
Context {zone : Runtime}.


Lemma seedJobs_nonempty (db : table) : db ≠ [] → seedJobs db = db.
Proof.
  intros H. unfold seedJobs, count. destruct db as [|r db]; [done|].
  by rewrite (proj2 (Z.ltb_lt _ _)) by (cbn [length]; lia).
Qed.


Lemma status_of_code_settled code :
  status_of_code code = done ∨ status_of_code code = failed.
Proof. destruct code as [[| |]|]; auto. Qed.


(** Every call leaves the ids of the table exact. *)
Lemma exec_exact_ids db c : exact_ids db → exact_ids (exec db c).2.
Proof.
  intros H. destruct c; cbn [exec snd].
  - by apply exact_ids_seedJobs.
  - by apply exact_ids_sweepStaleJobs.
  - by apply exact_ids_claimNextJob.
  - by apply exact_ids_updateJob.
  - by apply exact_ids_updateJob.
Qed.


End AnyZone.

End CallFacts.

(** * The table in good order *)

Module StoreInvariant.
Import Store Runner StoreFacts.

Section AnyZone.

(** Whatever zone the process runs in. *)
Context {zone : Runtime}.

Lemma store_ok_weaken (F F' : list Z) db :
  (∀ k, k ∈ F' → k ∈ F) → store_ok F db → store_ok F' db.
Proof. intros Hsub (Hk & Hr & Hf & Hex). repeat split; auto. Qed.

Lemma pending_rows_app (l1 l2 : table) :
  pending_rows (l1 ++ l2) = (pending_rows l1 + pending_rows l2)%nat.
Proof. unfold pending_rows. by rewrite filter_app, length_app. Qed.

Lemma pending_rows_cons r (l : table) :
  pending_rows (r :: l)
  = ((if decide (status r = pending) then 1 else 0) + pending_rows l)%nat.
Proof.
  unfold pending_rows. rewrite filter_cons. by destruct (decide _).
Qed.

(** Under the primary key a row is found at one place, and every other row
    has another id. *)
Lemma row_split (db : table) r :
  r ∈ db → ∃ l1 l2, db = l1 ++ r :: l2.
Proof. apply list_elem_of_split. Qed.

Lemma elem_of_middle (l1 l2 : table) r x :
  NoDup (id <$> (l1 ++ r :: l2)) →
  x ∈ l1 ++ r :: l2 → id x ≠ id r → x ∈ l1 ++ l2.
Proof.
  intros _ Hx Hne. rewrite elem_of_app, elem_of_cons in Hx.
  rewrite elem_of_app. destruct Hx as [?|[->|?]]; auto. done.
Qed.

Lemma elem_of_around (l1 l2 : table) r r' x :
  x ∈ l1 ++ l2 → x ∈ l1 ++ r' :: l2 ∧ x ∈ l1 ++ r :: l2.
Proof. rewrite !elem_of_app, !elem_of_cons. tauto. Qed.

(** The rows of a table that differs from another in one place. *)
Lemma Forall_replace (P : Job → Prop) (l1 l2 : table) r r' :
  Forall P (l1 ++ r :: l2) → P r' → Forall P (l1 ++ r' :: l2).
Proof.
  rewrite !Forall_app, !Forall_cons. tauto.
Qed.

(** A job that [spawnJob] resolved with: [done] or [failed], with
    [finished_at] set. *)
Lemma on_close_settled code now c :
  (status (on_close code now c) = done ∨ status (on_close code now c) = failed)
  ∧ finished_at (on_close code now c) ≠ None.
Proof. split; [|done]. cbn. destruct code as [[| |]|]; auto. Qed.

(** Writing back the result of a job in flight keeps the table in good
    order for the other jobs in flight, and no row becomes pending. *)
Lemma write_back_ok (F1 F2 : list Z) db job :
  store_ok (F1 ++ id job :: F2) db →
  NoDup (F1 ++ id job :: F2) →
  (status job = done ∨ status job = failed) → finished_at job ≠ None →
  store_ok (F1 ++ F2) (updateJob db job).2 ∧
  pending_rows (updateJob db job).2 = pending_rows db.
Proof.
  intros (Hkey & Hrows & Hfl & Hex) HF Hst Hfin.
  apply (exact_ids_updateJob _ job) in Hex.
  destruct (Hfl (id job)) as (r0 & Hr0 & Hid & Hrun);
    [rewrite elem_of_app, elem_of_cons; auto|].
  destruct (row_split db r0 Hr0) as (l1 & l2 & ->).
  unfold updateJob in *. cbn [snd] in *.
  rewrite update_returning_table, <- Hid in *.
  rewrite update_by_id by done.
  assert (status (set_result job r0) ≠ pending) as Hnp
    by (cbn; destruct Hst as [-> | ->]; done).
  split; [repeat split|].
  - by rewrite fmap_app, fmap_cons in *.
  - apply (Forall_replace _ _ _ r0); [done|].
    assert (row_ok r0) as [Hs0 _]
      by (rewrite Forall_forall in Hrows; by apply Hrows).
    split; cbn; [|tauto].
    rewrite Hs0, Hrun. split; [intros _|]; [by destruct Hst as [-> | ->]|done].
  - intros k Hk.
    assert (k ≠ id r0) as Hne.
    { intros ->. rewrite Hid in *.
      apply NoDup_app in HF as (_ & Hd & [Hn _]%NoDup_cons).
      apply elem_of_app in Hk as [Hk|Hk]; [|done].
      apply (Hd _ Hk). left. }
    destruct (Hfl k) as (r & Hr & Hrk & Hrr).
    { rewrite elem_of_app, elem_of_cons. apply elem_of_app in Hk. tauto. }
    exists r. split; [|done].
    apply (elem_of_around l1 l2 r0), (elem_of_middle l1 l2 r0); [done..|].
    by rewrite Hrk.
  - by rewrite update_by_id in Hex.
  - rewrite !pending_rows_app, !pending_rows_cons.
    rewrite decide_False by done. by rewrite decide_False by by rewrite Hrun.
Qed.

(** A claim keeps the table in good order with the claimed job added to
    those in flight; the job is none of them, and one row less is
    pending.  Without a pending row nothing changes. *)
Lemma claim_ok (F : list Z) db now :
  store_ok F db →
  match claimNextJob now db with
  | (Some job, db') =>
      store_ok (id job :: F) db' ∧ (id job ∉ F) ∧
      S (pending_rows db') = pending_rows db
  | (None, db') => db' = db ∧ pending_rows db = 0%nat
  end.
Proof.
  intros (Hkey & Hrows & Hfl & Hex).
  pose proof (exact_ids_claimNextJob now db Hex) as Hex'.
  destruct (oldest_pending db) as [k|] eqn:E.
  - destruct (claimNextJob_Some now db k E) as (r & Hr & Hk & Heq).
    rewrite Heq in *. cbn [snd] in Hex'. clear Heq.
    destruct (oldest_pending_Some db k E) as [(p & Hp & Hpp & Hpk) _].
    assert (r = p) as -> by (apply (primary_key db); congruence).
    pose proof (exact_ids_elem _ p Hex Hp) as Hnum.
    destruct (row_split db p Hp) as (l1 & l2 & ->). subst k.
    rewrite update_by_id in * by done. cbn [deserialize set_claimed id].
    rewrite Hnum.
    assert (row_ok p) as [_ Hf0]
      by (rewrite Forall_forall in Hrows; by apply Hrows).
    assert (∀ r, r ∈ l1 ++ p :: l2 → status r = running → id r ≠ id p) as Hother.
    { intros r Hr' Hrun Heq.
      assert (r = p) as -> by by apply (primary_key (l1 ++ p :: l2)).
      congruence. }
    split; [repeat split|split].
    + by rewrite fmap_app, fmap_cons in *.
    + apply (Forall_replace _ _ _ p); [done|]. split; cbn; [done|].
      rewrite Hf0, Hpp. split; intros [?|?]; done.
    + intros k [->|Hk]%elem_of_cons.
      * exists (set_claimed now p). split; [|done].
        rewrite elem_of_app, elem_of_cons. auto.
      * destruct (Hfl k Hk) as (r & Hr' & Hrk & Hrr). exists r.
        split; [|done].
        apply (elem_of_around l1 l2 p), (elem_of_middle l1 l2 p); [done..|].
        by apply Hother.
    + done.
    + intros Hin. destruct (Hfl _ Hin) as (r & Hr' & Hrk & Hrr).
      by apply (Hother r).
    + rewrite !pending_rows_app, !pending_rows_cons.
      rewrite decide_False by done. rewrite decide_True by done. lia.
  - rewrite claimNextJob_None by done. split; [done|].
    unfold pending_rows, oldest_pending in *.
    apply order_asc_limit_1_None, fmap_nil_inv in E. by rewrite E.
Qed.

End AnyZone.

End StoreInvariant.

(** * Steps of the process *)

Module PoolSteps.
Import Store Runner Pool Stated.

Section AnyZone.

(** Whatever zone the process runs in. *)
Context {zone : Runtime}.

(** Once the action of [main] is settled, or the process has died of an
    uncaught error, no event has an effect. *)
Lemma step_not_live s e : outcome s ≠ Live → step s e = s.
Proof. destruct e as [now e]. unfold step. by destruct (outcome s). Qed.

Lemma steps_not_live es : ∀ s, outcome s ≠ Live → steps s es = s.
Proof.
  induction es as [|e es IH]; intros s H; [done|].
  unfold steps. cbn [foldl]. rewrite step_not_live by done. by apply IH.
Qed.

Lemma steps_app s es1 es2 : steps s (es1 ++ es2) = steps (steps s es1) es2.
Proof. apply foldl_app. Qed.

Lemma main_live now : outcome (main now) = Live.
Proof. reflexivity. Qed.

Lemma settle_outcome s :
  outcome s = Live →
  outcome (settle s) = Live ∨ outcome (settle s) = Exited (exit 0 None).
Proof. unfold settle. destruct (forallb is_stopped (pool s)); auto. Qed.

(** A clean event leaves a live process live, or ends it through
    [exit(0)]. *)
Lemma step_clean s e :
  is_clean e → outcome s = Live →
  outcome (step s e) = Live ∨ outcome (step s e) = Exited (exit 0 None).
Proof.
  destruct e as [now [sg|w ev|error]]; try done. intros Hc Hl.
  unfold step. rewrite Hl.
  destruct (pool s !! w) as [[c| |job]|]; auto.
  destruct ev as [d|d|code|error]; try done; cbn [emit]; auto.
  destruct (createWorkerLoop now _) as [w' db2]. by apply settle_outcome.
Qed.

Lemma steps_clean es : ∀ s,
  forallb is_clean es → outcome s = Live →
  outcome (steps s es) = Live ∨ outcome (steps s es) = Exited (exit 0 None).
Proof.
  induction es as [|e es IH]; intros s Hc Hl; [by left|].
  apply andb_True in Hc as [He Hc]. fold (forallb is_clean es) in Hc.
  unfold steps. cbn [foldl]. fold (steps (step s e) es).
  destruct (step_clean s e He Hl) as [Hl'|Hx]; [by apply IH|].
  right. by rewrite steps_not_live by by rewrite Hx.
Qed.

End AnyZone.

End PoolSteps.

(** * The invariant of the program *)

Module PoolInvariant.
Import Store Runner Pool StoreFacts StoreInvariant PoolSteps.

Section AnyZone.

(** Whatever zone the process runs in. *)
Context {zone : Runtime}.

Lemma flights_app ws1 ws2 : flights (ws1 ++ ws2) = flights ws1 ++ flights ws2.
Proof. apply omap_app. Qed.

Lemma flights_running c ws : flights (Running c :: ws) = c_job c :: flights ws.
Proof. done. Qed.

Lemma flights_halt ws : flights (halt <$> ws) = [].
Proof. induction ws as [|[c| |job] ws IH]; by cbn. Qed.

Lemma flights_stopped ws : forallb is_stopped ws → flights ws = [].
Proof.
  induction ws as [|[c| |job] ws IH]; cbn; done.
Qed.

Lemma flights_waiting ws :
  ¬ forallb is_stopped ws → Forall (λ w, ¬ is_killed w) ws → flights ws ≠ [].
Proof.
  induction ws as [|[c| |job] ws IH]; cbn; intros Hs Hk; try done.
  - apply IH; [done|]. by apply Forall_cons in Hk as [_ ?].
  - apply Forall_cons in Hk as [Hk _]. by destruct Hk.
Qed.

(** The pool around the worker an event is for. *)
Lemma pool_at (ws : list worker) w x y :
  ws !! w = Some x →
  ws = take w ws ++ x :: drop (S w) ws ∧
  <[w := y]> ws = take w ws ++ y :: drop (S w) ws.
Proof.
  intros H. split; [by rewrite take_drop_middle|].
  apply insert_take_drop. by apply lookup_lt_Some in H.
Qed.

(** Data arriving from a child changes its two buffers and nothing else. *)
Lemma step_data s now w c ev c' :
  outcome s = Live → pool s !! w = Some (Running c) →
  emit now ev c = Waiting c' →
  c_job c' = c_job c ∧
  step s (now, Child w ev) = mkSystem (db s) (<[w := Running c']> (pool s)) Live.
Proof.
  intros Hl Hw He. unfold step. rewrite Hl, Hw, He. split; [|done].
  destruct ev; cbn in He; by simplify_eq.
Qed.

Lemma data_sound s w c c' :
  sound s → outcome s = Live → pool s !! w = Some (Running c) →
  c_job c' = c_job c →
  let s' := mkSystem (db s) (<[w := Running c']> (pool s)) Live in
  sound s' ∧ remaining s' = remaining s.
Proof.
  intros [Hst Hap Hlv] Hl Hw Hj s'.
  destruct (pool_at (pool s) w _ (Running c') Hw) as [Hp Hp'].
  set (l1 := take w (pool s)) in *. set (l2 := drop (S w) (pool s)) in *.
  assert (in_flight s' = in_flight s) as Hfl.
  { unfold in_flight. subst s'. cbn [pool]. rewrite Hp', Hp.
    rewrite !flights_app. cbn. by rewrite Hj. }
  split; [split|].
  - by rewrite Hfl.
  - by rewrite Hfl.
  - intros _. destruct (Hlv Hl) as [Hk Hne]. rewrite Hfl. split; [|done].
    subst s'. cbn [pool]. rewrite Hp'. rewrite Hp in Hk.
    rewrite Forall_app, Forall_cons in *. cbn. tauto.
  - unfold remaining. by rewrite Hfl.
Qed.

(** The close of a child in flight: its job is written back, its worker
    claims again or stops, and one thing less is left to do. *)
Lemma close_sound s now w c code :
  sound s → outcome s = Live → pool s !! w = Some (Running c) →
  let s' := step s (now, Child w (Close code)) in
  sound s' ∧ S (remaining s') = remaining s ∧
  (outcome s' = Live ∨
   outcome s' = Exited (exit 0 None) ∧ remaining s' = 0%nat).
Proof.
  intros [Hst Hap Hlv] Hl Hw s'. subst s'.
  destruct (Hlv Hl) as [Hk _].
  unfold step. rewrite Hl, Hw. cbn [emit].
  set (job := on_close code now c).
  set (l1 := take w (pool s)). set (l2 := drop (S w) (pool s)).
  assert (pool s = l1 ++ Running c :: l2) as Hp
    by apply (pool_at _ _ _ Stopped Hw).
  assert (∀ y, <[w := y]> (pool s) = l1 ++ y :: l2) as Hp'
    by (intros y; by apply pool_at with (x := Running c)).
  assert (in_flight s = flights l1 ++ c_job c :: flights l2) as Hfl
    by (unfold in_flight; by rewrite Hp, flights_app).
  rewrite Hfl, fmap_app, fmap_cons in Hst, Hap.
  change (id (c_job c)) with (id job) in Hst, Hap.
  destruct (on_close_settled code now c) as [Hset Hfin].
  destruct (write_back_ok _ _ _ job Hst Hap Hset Hfin) as [Hst1 Hpend1].
  set (db1 := (updateJob (db s) job).2) in *.
  pose proof (claim_ok _ db1 now Hst1) as Hclaim.
  unfold createWorkerLoop. cbn [isShuttingDown].
  rewrite Hp in Hk. apply Forall_app in Hk as [Hk1 [_ Hk2]%Forall_cons].
  destruct (claimNextJob now db1) as [[next|] db2].
  - destruct Hclaim as (Hst2 & Hfresh & Hpend2).
    unfold settle. cbn [pool]. rewrite Hp'.
    assert (forallb is_stopped (l1 ++ Running (spawn next) :: l2) = false) as ->.
    { apply not_true_is_false. rewrite forallb_app. cbn.
      rewrite andb_false_r. done. }
    split; [split|split; [|by left]].
    + unfold in_flight. cbn [pool db]. rewrite flights_app. cbn.
      rewrite fmap_app, fmap_cons. eapply store_ok_weaken; [|done].
      intros k. rewrite !elem_of_app, !elem_of_cons, elem_of_app. tauto.
    + unfold in_flight. cbn [pool]. rewrite flights_app. cbn.
      rewrite fmap_app, fmap_cons.
      apply NoDup_app in Hap as (H1 & Hd & [_ H2]%NoDup_cons).
      apply NoDup_app. split; [done|]. split.
      * intros k Hk [->|Hk']%elem_of_cons.
        -- apply Hfresh, elem_of_app. by left.
        -- apply (Hd k Hk). by right.
      * apply NoDup_cons. split; [|done]. intros Hin.
        apply Hfresh, elem_of_app. by right.
    + intros _. cbn [pool]. split.
      * rewrite Forall_app, Forall_cons. cbn. tauto.
      * unfold in_flight. cbn [pool]. rewrite flights_app. cbn.
        by destruct (flights l1).
    + unfold remaining. rewrite Hfl. unfold in_flight. cbn [pool db].
      rewrite flights_app, flights_running.
      rewrite !length_app. cbn [length]. rewrite <- Hpend1. lia.
  - destruct Hclaim as [-> Hnone].
    assert (in_flight (mkSystem db1 (<[w := Stopped]> (pool s)) Live)
            = flights l1 ++ flights l2) as Hfl'
      by (unfold in_flight; cbn [pool]; by rewrite Hp', flights_app).
    assert (store_ok (id <$> flights l1 ++ flights l2) db1) as Hst2
      by by rewrite fmap_app.
    assert (NoDup (id <$> flights l1 ++ flights l2)) as Hap2.
    { rewrite fmap_app. apply NoDup_app in Hap as (H1 & Hd & [_ H2]%NoDup_cons).
      apply NoDup_app. split; [done|]. split; [|done].
      intros k Hk Hk'. apply (Hd k Hk). by right. }
    unfold settle. cbn [pool]. rewrite Hp'.
    destruct (forallb is_stopped (l1 ++ Stopped :: l2)) eqn:Hall.
    + assert (flights l1 = [] ∧ flights l2 = []) as [Hf1 Hf2].
      { rewrite forallb_app in Hall. cbn in Hall.
        apply andb_true_iff in Hall as [H1 H2].
        split; apply flights_stopped; by apply Is_true_true. }
      split; [split|split; [|right; split; [done|]]].
      * unfold in_flight, resolve. cbn [pool db]. rewrite flights_halt.
        eapply store_ok_weaken; [|exact Hst2]. by intros k Hk%elem_of_nil.
      * unfold in_flight, resolve. cbn [pool]. rewrite flights_halt.
        constructor.
      * done.
      * unfold remaining. rewrite Hfl, Hf1, Hf2.
        unfold in_flight, resolve. cbn [pool db]. rewrite flights_halt.
        cbn [app length]. by rewrite <- Hpend1, Hnone.
      * unfold remaining, in_flight, resolve. cbn [pool db].
        rewrite flights_halt. cbn [length]. by rewrite Hnone.
    + split; [split|split; [|by left]].
      * by rewrite <- Hp', Hfl'.
      * by rewrite <- Hp', Hfl'.
      * intros _. cbn [pool]. split.
        -- rewrite Forall_app, Forall_cons. cbn. tauto.
        -- rewrite <- Hp', Hfl', <- flights_app.
           assert (flights (l1 ++ l2) = flights (l1 ++ Stopped :: l2)) as ->
             by by rewrite !flights_app.
           apply flights_waiting; [rewrite Hall; by intros []|].
           rewrite Forall_app, Forall_cons. cbn. tauto.
      * unfold remaining. rewrite <- Hp', Hfl', Hfl. cbn [db].
        rewrite !length_app. cbn [length]. rewrite <- Hpend1. lia.
Qed.

Lemma resolve_sound e s : sound s → sound (resolve e s).
Proof.
  intros [Hst Hap Hlv]. split.
  - unfold in_flight, resolve. cbn [pool db]. rewrite flights_halt.
    eapply store_ok_weaken; [|exact Hst]. by intros k Hk%elem_of_nil.
  - unfold in_flight, resolve. cbn [pool]. rewrite flights_halt. constructor.
  - done.
Qed.

(** Every event keeps the invariant. *)
Lemma step_sound s e : sound s → sound (step s e).
Proof.
  intros Hs. destruct (outcome s) as [|x|err] eqn:Hl;
    [|by rewrite step_not_live by by rewrite Hl..].
  destruct e as [now [sg|w ev|error]].
  - unfold step. rewrite Hl. by apply resolve_sound.
  - destruct (pool s !! w) as [[c| |job]|] eqn:Hw;
      try (unfold step; by rewrite Hl, Hw).
    destruct ev as [d|d|code|error].
    + destruct (step_data s now w c (StdoutData d) _ Hl Hw eq_refl)
        as [Hj ->]. by apply data_sound with (c := c).
    + destruct (step_data s now w c (StderrData d) _ Hl Hw eq_refl)
        as [Hj ->]. by apply data_sound with (c := c).
    + by apply (close_sound s now w c code).
    + unfold step. rewrite Hl, Hw. cbn [emit].
      destruct Hs as [Hst Hap Hlv]. by split.
  - unfold step. rewrite Hl. by apply resolve_sound.
Qed.

Lemma main_sound now : sound (main now).
Proof.
  split.
  - split; [|split; [|split]].
    + apply (bool_decide_unpack _). by vm_compute.
    + apply (bool_decide_unpack _). by vm_compute.
    + intros k Hk. change (k ∈ [1; 2; 3]) in Hk.
      rewrite !elem_of_cons, elem_of_nil in Hk.
      destruct Hk as [->|[->|[->|[]]]]; eexists.
      * split; [apply (list_elem_of_lookup_2 _ 0%nat); by vm_compute|done].
      * split; [apply (list_elem_of_lookup_2 _ 1%nat); by vm_compute|done].
      * split; [apply (list_elem_of_lookup_2 _ 2%nat); by vm_compute|done].
    + apply (bool_decide_unpack _). by vm_compute.
  - apply (bool_decide_unpack _). by vm_compute.
  - intros _. split; [|by vm_compute].
    apply (bool_decide_unpack _). by vm_compute.
Qed.

(** The invariant holds in every state the program passes through. *)
Lemma reachable_sound s : reachable s → sound s.
Proof.
  intros (now & es & ->). revert es. apply (rev_ind (λ es, sound _)).
  - apply main_sound.
  - intros e es IH. rewrite steps_app. by apply step_sound.
Qed.

(** Once the process has ended no child is seen to close. *)
Lemma closed_not_live es : ∀ s, outcome s ≠ Live → closed s es = 0%nat.
Proof.
  induction es as [|e es IH]; intros s H; [done|]. cbn [closed].
  rewrite step_not_live, IH by done. unfold settles.
  by destruct (outcome s).
Qed.

(** A run with no signal and no error, whatever the children write and in
    whichever order they close: each close of a child in flight takes one
    thing off what is left to do, data leaves it as it is, and the process
    is alive exactly as long as something is left; at the end it has exited
    through [exit(0)]. *)
Lemma clean_countdown es : ∀ s,
  sound s → outcome s = Live → forallb is_clean es →
  (remaining (steps s es) + closed s es = remaining s)%nat ∧
  sound (steps s es) ∧
  (outcome (steps s es) = Live ∧ (0 < remaining (steps s es))%nat ∨
   outcome (steps s es) = Exited (exit 0 None) ∧ remaining (steps s es) = 0%nat).
Proof.
  induction es as [|e es IH]; intros s Hs Hl Hc.
  - cbn. split; [lia|]. split; [done|]. left. split; [done|].
    destruct Hs as [_ _ Hlv]. destruct (Hlv Hl) as [_ Hne].
    unfold remaining. destruct (in_flight s); [done|cbn; lia].
  - apply andb_True in Hc as [He Hc]. fold (forallb is_clean es) in Hc.
    destruct e as [now [sg|w ev|error]]; try done.
    cbn [closed]. unfold steps. cbn [foldl].
    fold (steps (step s (now, Child w ev)) es).
    assert (∀ c c', pool s !! w = Some (Running c) →
              emit now ev c = Waiting c' →
              (remaining (steps (step s (now, Child w ev)) es)
               + (0 + closed (step s (now, Child w ev)) es)
               = remaining s)%nat ∧
              sound (steps (step s (now, Child w ev)) es) ∧
              (outcome (steps (step s (now, Child w ev)) es) = Live ∧
               (0 < remaining (steps (step s (now, Child w ev)) es))%nat ∨
               outcome (steps (step s (now, Child w ev)) es)
               = Exited (exit 0 None) ∧
               remaining (steps (step s (now, Child w ev)) es) = 0%nat))
      as Hwait.
    { intros c c' Hw Hev.
      destruct (step_data s now w c ev c' Hl Hw Hev) as [Hj ->].
      destruct (data_sound s w c c' Hs Hl Hw Hj) as [Hs' Hrem].
      destruct (IH _ Hs' eq_refl Hc) as (Hcount & Hsound & Hend).
      rewrite Hrem in Hcount. split; [lia|]. by split. }
    assert ((∃ code, ev = Close code) ∨ settles s (now, Child w ev) = false)
      as [[code ->]|Hno].
    { unfold settles. rewrite Hl. cbn [snd]. destruct ev; eauto. }
    2: assert (pool s !! w = None ∨ pool s !! w = Some Stopped ∨
               (∃ job, pool s !! w = Some (Killed job)) ∨
               ∃ c, pool s !! w = Some (Running c)) as Hpool
         by (destruct (pool s !! w) as [[c| |job]|]; eauto).
    2: { rewrite Hno. destruct Hpool as [Hw|[Hw|[[job Hw]|[c Hw]]]].
         - assert (step s (now, Child w ev) = s) as ->
             by (unfold step; by rewrite Hl, Hw).
           by apply IH.
         - assert (step s (now, Child w ev) = s) as ->
             by (unfold step; by rewrite Hl, Hw).
           by apply IH.
         - assert (step s (now, Child w ev) = s) as ->
             by (unfold step; by rewrite Hl, Hw).
           by apply IH.
         - destruct ev as [d|d|code|error]; [| | |done].
           + by apply (Hwait c _ Hw eq_refl).
           + by apply (Hwait c _ Hw eq_refl).
           + unfold settles in Hno. cbn [snd] in Hno.
             by rewrite Hl, Hw in Hno. }
    clear Hwait.
    destruct (pool s !! w) as [[c| |job]|] eqn:Hw.
    + assert (settles s (now, Child w (Close code)) = true) as ->
        by (unfold settles; cbn [snd]; by rewrite Hl, Hw).
      destruct (close_sound s now w c code Hs Hl Hw) as (Hs' & Hrem & Hout).
      set (s' := step s (now, Child w (Close code))) in *.
      destruct Hout as [Hlive|[Hexit Hzero]].
      * destruct (IH s' Hs' Hlive Hc) as (Hcount & Hsound & Hend).
        split; [lia|]. by split.
      * rewrite steps_not_live, closed_not_live by by rewrite Hexit.
        split; [lia|]. split; [done|]. by right.
    + assert (step s (now, Child w (Close code)) = s) as ->
        by (unfold step; by rewrite Hl, Hw).
      assert (settles s (now, Child w (Close code)) = false) as ->
        by (unfold settles; cbn [snd]; by rewrite Hl, Hw).
      by apply IH.
    + assert (step s (now, Child w (Close code)) = s) as ->
        by (unfold step; by rewrite Hl, Hw).
      assert (settles s (now, Child w (Close code)) = false) as ->
        by (unfold settles; cbn [snd]; by rewrite Hl, Hw).
      by apply IH.
    + assert (step s (now, Child w (Close code)) = s) as ->
        by (unfold step; by rewrite Hl, Hw).
      assert (settles s (now, Child w (Close code)) = false) as ->
        by (unfold settles; cbn [snd]; by rewrite Hl, Hw).
      by apply IH.
Qed.

End AnyZone.

End PoolInvariant.

(** * The claim protocol *)

Module ClaimProtocol.
Import Store Runner Calls Pool StoreFacts CallFacts PoolInvariant.

Section AnyZone.

(** Whatever zone the process runs in. *)
Context {zone : Runtime}.


End AnyZone.


End ClaimProtocol.

(** * Sweeping and seeding *)

Module Maintenance.
Import Store StoreFacts CallFacts.

Lemma is_stale_spec now r :
  is_stale now r ↔
  status r = running ∧ ∃ t, started_at r = Some t ∧ t < now - stale_threshold.
Proof.
  unfold is_stale. rewrite andb_True, bool_decide_spec.
  destruct (started_at r) as [t|].
  - rewrite Is_true_true, Z.ltb_lt. split; [|by intros [? (? & [= <-] & ?)]].
    intros [? ?]. eauto.
  - split; [by intros [_ []]|]. by intros [_ (? & [=] & _)].
Qed.

(** C6.  [sweepStaleJobs] is one UPDATE statement.  It keeps every row in
    its place; a row that was [running] with [started_at] older than
    [now - stale_threshold] (ten seconds) comes out [failed] with [stderr]
    the marker 'Job timed out' and its other columns as they were; every
    other row comes out as it was. *)
Theorem sweepStaleJobs_fails_stale_rows now (db : table) :
  sweepStaleJobs now db
  = (update_returning (is_stale now) set_timed_out db).1 ∧
  length (sweepStaleJobs now db) = length db ∧
  ∀ (i : nat) r, db !! i = Some r →
    ∃ r', sweepStaleJobs now db !! i = Some r' ∧
      (status r = running →
       (∃ t, started_at r = Some t ∧ t < now - stale_threshold) →
       status r' = failed ∧ stderr r' = Some "Job timed out"%string ∧
       id r' = id r ∧ command r' = command r ∧ args r' = args r ∧
       started_at r' = started_at r ∧ finished_at r' = finished_at r ∧
       stdout r' = stdout r) ∧
      (¬ (status r = running ∧
          ∃ t, started_at r = Some t ∧ t < now - stale_threshold) →
       r' = r).
Proof.
  split; [done|]. unfold sweepStaleJobs. rewrite update_returning_table.
  split; [by rewrite length_fmap|]. intros i r Hi.
  rewrite list_lookup_fmap, Hi. cbn [fmap option_fmap option_map].
  eexists. split; [done|]. split.
  - intros Hrun Hold.
    by rewrite (Is_true_true_1 _ (proj2 (is_stale_spec now r) (conj Hrun Hold))).
  - intros Hn. destruct (is_stale now r) eqn:E; [|done].
    destruct Hn. by apply is_stale_spec, Is_true_true.
Qed.

Lemma is_stale_mono t1 t2 r : t1 ≤ t2 → is_stale t1 r → is_stale t2 r.
Proof.
  rewrite !is_stale_spec. intros Hle (Hrun & t & Ht & Hlt).
  split; [done|]. exists t. split; [done|lia].
Qed.

Lemma is_stale_timed_out now r : is_stale now (set_timed_out r) = false.
Proof. unfold is_stale. by rewrite bool_decide_false. Qed.

Lemma sweep_row_twice t1 t2 r :
  (if is_stale t2 (if is_stale t1 r then set_timed_out r else r)
   then set_timed_out (if is_stale t1 r then set_timed_out r else r)
   else (if is_stale t1 r then set_timed_out r else r))
  = if is_stale (Z.max t1 t2) r then set_timed_out r else r.
Proof.
  destruct (is_stale t1 r) eqn:E1.
  - rewrite is_stale_timed_out.
    by rewrite (Is_true_true_1 _ (is_stale_mono t1 (Z.max t1 t2) r
                  (Z.le_max_l _ _) (Is_true_true_2 _ E1))).
  - destruct (Z.max_spec t1 t2) as [[_ ->]|[Hle ->]]; [done|]. rewrite E1.
    destruct (is_stale t2 r) eqn:E2; [|done].
    apply Is_true_true_2, (is_stale_mono t2 t1 r Hle), Is_true_true_1 in E2.
    congruence.
Qed.

(** C7.  Sweeping is idempotent: a second sweep at the same instant changes
    nothing, so the table, and with it the set of [failed] rows, is that of
    one sweep; when the clock has moved between the two sweeps they leave
    what one sweep at the later instant leaves. *)
Theorem sweepStaleJobs_idempotent :
  (∀ now db,
     sweepStaleJobs now (sweepStaleJobs now db) = sweepStaleJobs now db ∧
     filter (λ r, status r = failed) (sweepStaleJobs now (sweepStaleJobs now db))
     = filter (λ r, status r = failed) (sweepStaleJobs now db)) ∧
  (∀ t1 t2 db,
     sweepStaleJobs t2 (sweepStaleJobs t1 db)
     = sweepStaleJobs (Z.max t1 t2) db).
Proof.
  assert (∀ t1 t2 db, sweepStaleJobs t2 (sweepStaleJobs t1 db)
                      = sweepStaleJobs (Z.max t1 t2) db) as Hmax.
  { intros t1 t2 db. unfold sweepStaleJobs. rewrite !update_returning_table.
    rewrite <- list_fmap_compose. apply list_fmap_ext.
    intros _ r _. apply sweep_row_twice. }
  split; [|done]. intros now db.
  assert (sweepStaleJobs now (sweepStaleJobs now db) = sweepStaleJobs now db)
    as -> by by rewrite Hmax, Z.max_id.
  done.
Qed.

(** C8.  [seedJobs] inserts only into an empty table, and then the five
    jobs, all [pending], with the ids 1 to 5 and every other column NULL;
    on a table that holds a row it changes nothing.  Seeding twice is
    seeding once. *)
Theorem seedJobs_idempotent :
  (seedJobs []
   = (λ '(k, (c, a)), mkJob k c a pending None None None None)
       <$> zip [1; 2; 3; 4; 5] jobs) ∧
  (∀ r, r ∈ seedJobs [] → status r = pending) ∧
  (∀ db, db ≠ [] → seedJobs db = db) ∧
  (∀ db, seedJobs (seedJobs db) = seedJobs db).
Proof.
  split; [reflexivity|]. split.
  - intros r Hr. vm_compute in Hr.
    repeat (apply elem_of_cons in Hr as [->|Hr]; [reflexivity|]).
    by apply elem_of_nil in Hr.
  - split; [apply seedJobs_nonempty|]. intros [|r db].
    + by apply seedJobs_nonempty.
    + by rewrite !seedJobs_nonempty.
Qed.

(** The examples that follow run in a process under UTC. *)
#[local] Existing Instance utc.

(** A job marked [running] twenty seconds ago is swept: it is [failed] and
    its [stderr] says it timed out. *)
Lemma sweepStaleJobs_fails_stale_rows_witness :
  let r := mkJob 1 "sleep" ["5"%string] running (Some 100) None None None in
  [r] !! 0%nat = Some r ∧
  ∃ r', sweepStaleJobs 120 [r] !! 0%nat = Some r' ∧
        status r' = failed ∧ stderr r' = Some "Job timed out"%string.
Proof.
  intros r. split; [reflexivity|].
  destruct (proj2 (proj2 (sweepStaleJobs_fails_stale_rows 120 [r])) 0%nat r
              eq_refl) as (r' & Hr' & Hstale & _).
  exists r'. split; [exact Hr'|].
  destruct Hstale as (Hs & He & _).
  - reflexivity.
  - exists 100. split; [reflexivity|]. unfold stale_threshold. lia.
  - split; [exact Hs|exact He].
Defined.

(** Seeding a table that holds a claimed job leaves it alone. *)
Lemma seedJobs_idempotent_witness :
  let db := (claimNextJob 7 (seedJobs [])).2 in
  db ≠ [] ∧ seedJobs db = db.
Proof.
  intros db. split; [discriminate|].
  apply (proj1 (proj2 (proj2 seedJobs_idempotent)) db). discriminate.
Defined.

End Maintenance.

(** * Writing a result back *)

Module WriteBackFacts.
Import Store StoreFacts Stated.

(** C5, as the code has it.  [updateJob] always returns normally.  It keeps
    every row in its place; a row with the id of the job takes the job's
    [status], [finished_at], [stdout] and [stderr] and keeps its other
    columns; every other row is as it was.  When no row has that id the
    table is unchanged, and no error is raised. *)
Theorem updateJob_writes_matching_rows (db : table) job :
  (updateJob db job).1 = Returns () ∧
  length (updateJob db job).2 = length db ∧
  (∀ (i : nat) r, db !! i = Some r →
     ∃ r', (updateJob db job).2 !! i = Some r' ∧
       (id r = id job →
        status r' = status job ∧ finished_at r' = finished_at job ∧
        stdout r' = stdout job ∧ stderr r' = stderr job ∧
        id r' = id r ∧ command r' = command r ∧ args r' = args r ∧
        started_at r' = started_at r) ∧
       (id r ≠ id job → r' = r)) ∧
  ((∀ r, r ∈ db → id r ≠ id job) → (updateJob db job).2 = db).
Proof.
  unfold updateJob. cbn [fst snd]. rewrite update_returning_table.
  split; [done|]. split; [by rewrite length_fmap|]. split.
  - intros i r Hi. rewrite list_lookup_fmap, Hi.
    cbn [fmap option_fmap option_map]. eexists. split; [done|].
    destruct (Z.eqb_spec (id r) (id job)); by split.
  - intros Hno. apply update_nothing. intros r Hr.
    by apply Z.eqb_neq, Hno.
Qed.

(** C5, as stated, fails: written back into the empty table, a job is
    accepted without any error. *)
Lemma updateJob_raises_no_NotFound : ¬ update_fails_when_row_missing.
Proof.
  intros H.
  destruct (H [] (mkJob 1 "echo" [] done None (Some 4) None None))
    as [error Herr].
  - by intros r Hr%elem_of_nil.
  - discriminate Herr.
Qed.

(** The examples that follow run in a process under UTC. *)
#[local] Existing Instance utc.

(** Writing back the result of job 1 into the seeded table after a claim:
    row 1 takes the four columns, and a job of an id no row has changes
    nothing. *)
Lemma updateJob_writes_matching_rows_witness :
  let db := (claimNextJob 3 (seedJobs [])).2 in
  let job := mkJob 1 "echo" [] done (Some 3) (Some 4) (Some "hi") (Some "") in
  let ghost := mkJob 9 "echo" [] done (Some 3) (Some 4) (Some "hi") (Some "") in
  (status <$> (updateJob db job).2 !! 0%nat) = Some done ∧
  (updateJob db ghost).1 = Returns () ∧ (updateJob db ghost).2 = db.
Proof.
  intros db job ghost. split; [reflexivity|].
  split; [exact (proj1 (updateJob_writes_matching_rows db ghost))|].
  apply (proj2 (proj2 (proj2 (updateJob_writes_matching_rows db ghost)))).
  intros r Hr. vm_compute in Hr.
  repeat (apply elem_of_cons in Hr as [->|Hr]; [discriminate|]).
  by apply elem_of_nil in Hr.
Defined.

End WriteBackFacts.

(** * The outcome of a child process *)

Module RunnerFacts.
Import Store Runner.

(** C10.  The job [spawnJob] resolves with on "close" is [done] exactly when
    the code is the number 0; with any other code, and with the code [null]
    of a child ended by a signal, it is [failed].  In every case
    [finished_at] is set, to the time of the event, and [stdout] and
    [stderr] are the two buffers. *)
Theorem on_close_done_only_for_zero code now c :
  (status (on_close code now c) = done ↔ code = Some 0) ∧
  (status (on_close code now c) = failed ↔ code ≠ Some 0) ∧
  status (on_close None now c) = failed ∧
  finished_at (on_close code now c) = Some now ∧
  stdout (on_close code now c) = Some (c_stdout c) ∧
  stderr (on_close code now c) = Some (c_stderr c) ∧
  spawnJob (c_job c) [(now, Close code)]
  = Resolved (on_close code now (spawn (c_job c))).
Proof.
  repeat split; try done; destruct code as [[| |]|]; cbn; congruence.
Qed.

End RunnerFacts.

(** * The process: signals, errors and the exit status *)

Module PoolFacts.
Import Store Runner Pool Stated PoolSteps PoolInvariant.

Section AnyZone.

(** Whatever zone the process runs in. *)
Context {zone : Runtime}.

(** C9.  The status the process ends with.  In a run with no signal and no
    error, whatever the children write to their streams and in whichever
    order and with whichever code they close, the process is alive until
    the fifth close of a child in flight, exits through [exit(0)] with
    status 0 at the fifth, and sees no sixth.  On a live process SIGINT
    gives the status 130, SIGTERM the status 143 and an error escaping the
    body the status 1, three values that differ from each other and from
    0; the error event of a child in flight, for which nobody listens, ends
    the process uncaught, with the status 1 of the runtime and without
    [process.exit] being called.  A process has no status exactly while it
    lives, and once it has ended no later event changes its status. *)
Theorem exit_status_of_run :
  (∀ now es,
     forallb is_clean es →
     let s := steps (main now) es in
     (closed (main now) es ≤ 5)%nat ∧
     ((closed (main now) es < 5)%nat → outcome s = Live) ∧
     (closed (main now) es = 5%nat →
      outcome s = Exited (exit 0 None) ∧ exit_code s = Some 0)) ∧
  (∀ s now,
     outcome s = Live →
     exit_code (step s (now, Signal SIGINT)) = Some 130 ∧
     exit_code (step s (now, Signal SIGTERM)) = Some 143 ∧
     (∀ error, exit_code (step s (now, Raise error)) = Some 1) ∧
     (∀ w c error,
        pool s !! w = Some (Running c) →
        let s' := step s (now, Child w (Error error)) in
        outcome s' = Uncaught error ∧ exit_code s' = Some 1 ∧
        process_status s' = None)) ∧
  (∀ s, exit_code s = None ↔ outcome s = Live) ∧
  (∀ s e, outcome s = Exited e →
          exit_code s = Some (exit_status e) ∧
          process_status s = Some (exit_status e)) ∧
  (∀ s es, outcome s ≠ Live → exit_code (steps s es) = exit_code s).
Proof.
  split; [|split; [|split; [|split]]].
  - intros now es Hc s.
    destruct (clean_countdown es (main now) (main_sound now) (main_live now)
                Hc) as (Hcount & _ & Hend).
    assert (remaining (main now) = 5%nat) as Hfive by by vm_compute.
    rewrite Hfive in Hcount. subst s. unfold exit_code.
    destruct Hend as [[Hlive Hpos]|[Hexit Hzero]].
    + split; [lia|]. split; [intros _; exact Hlive|lia].
    + rewrite Hexit. split; [lia|]. split; [lia|]. intros _.
      split; reflexivity.
  - intros s now Hl. unfold step, exit_code, process_status. rewrite Hl.
    split; [done|]. split; [done|]. split; [done|].
    intros w c error Hw. by rewrite Hw.
  - intros s. unfold exit_code. by destruct (outcome s).
  - intros s e H. unfold exit_code, process_status. by rewrite H.
  - intros s es H. by rewrite steps_not_live.
Qed.

(** C3, as the code has it.  The first signal ends a live process at once:
    the action of [main] is resolved with the status of the signal, 130 for
    SIGINT and 143 for SIGTERM; the table is left as it is, so the rows of
    the jobs in flight stay [running]; every child in flight is killed and
    no job remains in flight; and no later event, a second signal
    included, has any effect: no worker claims again. *)
Theorem first_signal_exits_at_once s now sg :
  outcome s = Live →
  let s' := step s (now, Signal sg) in
  outcome s' = Exited (interrupt sg) ∧
  process_status s' = Some (match sg with SIGINT => 130 | SIGTERM => 143 end) ∧
  db s' = db s ∧
  pool s' = halt <$> pool s ∧
  in_flight s' = [] ∧
  ∀ es, steps s' es = s'.
Proof.
  intros Hl s'. subst s'. unfold step. rewrite Hl.
  repeat split.
  - by destruct sg.
  - unfold in_flight. cbn [resolve pool].
    induction (pool s) as [|[c| |job] ws IH]; [done|..]; by cbn.
  - intros es. by apply steps_not_live.
Qed.

End AnyZone.

(** The examples that follow run in a process under UTC. *)
#[local] Existing Instance utc.

(** The run [main] starts, interrupted while its first three jobs are in
    flight, and the same run left alone while its children write and until
    the five of them have closed; a close for a worker that has stopped
    counts for nothing. *)
Lemma exit_status_of_run_witness :
  let es := [(1, Child 0 (StdoutData "Hello, World!"));
             (1, Child 0 (Close (Some 0)));
             (2, Child 1 (StderrData "ls: cannot open directory"));
             (2, Child 1 (Close (Some 2)));
             (3, Child 2 (Close None));
             (4, Child 2 (Close (Some 0)));
             (4, Child 0 (StdoutData "Tue Nov  3"));
             (4, Child 0 (Close (Some 0)));
             (5, Child 1 (StdoutData "up 3 days"));
             (5, Child 1 (Close (Some 0)))] in
  (forallb is_clean es ∧ closed (main 0) es = 5%nat ∧
   closed (main 0) (take 9 es) = 4%nat) ∧
  outcome (steps (main 0) (take 9 es)) = Live ∧
  exit_code (steps (main 0) es) = Some 0 ∧
  exit_code (step (main 0) (5, Signal SIGINT)) = Some 130 ∧
  exit_code (step (main 0) (5, Signal SIGTERM)) = Some 143 ∧
  exit_code (step (main 0) (5, Raise "disk I/O error")) = Some 1 ∧
  exit_code (step (main 0) (5, Child 1 (Error "spawn ls ENOENT"))) = Some 1.
Proof.
  intros es.
  assert (closed (main 0) es = 5%nat) as Hfive by by vm_compute.
  assert (closed (main 0) (take 9 es) = 4%nat) as Hfour by by vm_compute.
  assert (outcome (main 0) = Live) as Hlive by by vm_compute.
  assert (pool (main 0) !! 1%nat
          = Some (Running (spawn (mkJob 2 "ls" ["-l"%string] running (Some 0)
                                        None None None)))) as Hw
    by by vm_compute.
  split; [split; [done|split; [exact Hfive|exact Hfour]]|].
  destruct exit_status_of_run as (Hclean & Hend & _).
  destruct (Hend (main 0) 5 Hlive) as (Hint & Hterm & Herr & Hun).
  split.
  { apply (proj1 (proj2 (Hclean 0 (take 9 es) I))). rewrite Hfour. lia. }
  split; [exact (proj2 (proj2 (proj2 (Hclean 0 es I)) Hfive))|].
  split; [exact Hint|]. split; [exact Hterm|]. split; [exact (Herr _)|].
  exact (proj1 (proj2 (Hun 1%nat _ "spawn ls ENOENT"%string Hw))).
Defined.

Lemma first_signal_exits_at_once_witness :
  outcome (main 0) = Live ∧
  id <$> in_flight (main 0) = [1; 2; 3] ∧
  let s' := step (main 0) (5, Signal SIGTERM) in
  process_status s' = Some 143 ∧ in_flight s' = [] ∧
  steps s' [(6, Signal SIGINT); (7, Child 0 (Close (Some 0)))] = s'.
Proof.
  split; [reflexivity|]. split; [reflexivity|].
  assert (outcome (main 0) = Live) as Hlive by by vm_compute.
  destruct (first_signal_exits_at_once (main 0) 5 SIGTERM Hlive)
    as (_ & Hst & _ & _ & Hfl & Hfix).
  split; [exact Hst|]. split; [exact Hfl|]. exact (Hfix _).
Defined.

(** C3, as stated, fails: SIGINT delivered while the first three jobs are
    in flight ends the process where a graceful stop would keep it
    alive. *)
Lemma first_signal_is_not_graceful : ¬ first_signal_is_graceful.
Proof.
  intros H.
  destruct (H (main 0) 5 SIGINT) as [Hlive _].
  - by exists 0, [].
  - reflexivity.
  - vm_compute in Hlive. discriminate Hlive.
Qed.

End PoolFacts.

(** * A command that cannot be spawned *)

Module SpawnFailure.
Import Store Runner Pool Stated PoolSteps.

Section AnyZone.

(** Whatever zone the process runs in. *)
Context {zone : Runtime}.

Lemma run_child_data evs : ∀ c rest,
  Forall (λ e, is_data e.2) evs →
  run_child (evs ++ rest) c = run_child rest (feed c evs).
Proof.
  induction evs as [|[now ev] evs IH]; intros c rest Hd; [done|].
  apply Forall_cons in Hd as [Hev Hd]. cbn [app run_child feed foldl].
  destruct ev; try done; cbn [emit snd]; by apply IH.
Qed.

Lemma feed_buffers evs : ∀ c,
  feed c evs
  = mkChild (c_job c)
      (foldl (λ acc e, match e.2 with StdoutData d => acc +:+ d | _ => acc end)
             (c_stdout c) evs)
      (foldl (λ acc e, match e.2 with StderrData d => acc +:+ d | _ => acc end)
             (c_stderr c) evs).
Proof.
  induction evs as [|[now ev] evs IH]; intros c; [by destruct c|].
  unfold feed in *. cbn [foldl snd]. destruct ev; by rewrite IH.
Qed.

Lemma feed_spawn job evs :
  feed (spawn job) evs = mkChild job (stdout_text evs) (stderr_text evs).
Proof. by rewrite feed_buffers. Qed.

(** C4, as the code has it.  [spawnJob] settles on the first event of its
    child that is not "data".  While only data has arrived it is pending,
    the two buffers holding what the child wrote.  On "close" it resolves
    with the job [done] or [failed] by the close code, [finished_at] the
    time of the event and the buffers as [stdout] and [stderr]: nothing but
    what the child wrote reaches [stderr], and no status is made up.  On
    "error", which a command that cannot be spawned emits, no listener is
    registered: no job is resolved, the error is thrown out of the event
    loop, the table and the pool stay as they are (the row stays [running])
    and no later event has an effect: the workers do not go on. *)
Theorem spawn_error_is_unhandled :
  (∀ job evs now,
     Forall (λ e, is_data e.2) evs →
     spawnJob job evs
     = Waiting (mkChild job (stdout_text evs) (stderr_text evs)) ∧
     (∀ code rest,
        spawnJob job (evs ++ (now, Close code) :: rest)
        = Resolved
            (mkJob (id job) (command job) (args job) (status_of_code code)
                   (started_at job) (Some now)
                   (Some (stdout_text evs)) (Some (stderr_text evs)))) ∧
     (∀ error rest,
        spawnJob job (evs ++ (now, Error error) :: rest) = Unhandled error)) ∧
  (∀ s now w c error,
     outcome s = Live → pool s !! w = Some (Running c) →
     let s' := step s (now, Child w (Error error)) in
     outcome s' = Uncaught error ∧ db s' = db s ∧ pool s' = pool s ∧
     ∀ es, steps s' es = s').
Proof.
  split.
  - intros job evs now Hd. unfold spawnJob. split; [|split].
    + rewrite <- (app_nil_r evs) at 1.
      by rewrite run_child_data, feed_spawn.
    + intros code rest. by rewrite run_child_data, feed_spawn.
    + intros error rest. by rewrite run_child_data, feed_spawn.
  - intros s now w c error Hl Hw s'. subst s'. unfold step.
    rewrite Hl, Hw. cbn [emit outcome db pool]. repeat split.
    intros es. by apply steps_not_live.
Qed.

End AnyZone.

(** The examples that follow run in a process under UTC. *)
#[local] Existing Instance utc.

(** The first worker's command cannot be spawned: its child emits "error"
    while job 1 is [running]. *)
Lemma spawn_error_is_unhandled_witness :
  let s := main 0 in
  let job := mkJob 1 "echo" ["Hello, World!"%string] running (Some 0) None
                   None None in
  (outcome s = Live ∧ pool s !! 0%nat = Some (Running (spawn job))) ∧
  let s' := step s (1, Child 0 (Error "spawn echo ENOENT")) in
  outcome s' = Uncaught "spawn echo ENOENT" ∧
  (status <$> db s' !! 0%nat) = Some running ∧
  steps s' [(2, Child 1 (Close (Some 0)))] = s'.
Proof.
  intros s job. split; [split; reflexivity|].
  destruct (proj2 spawn_error_is_unhandled s 1 0%nat (spawn job)
              "spawn echo ENOENT"%string eq_refl eq_refl)
    as (Hout & _ & _ & Hfix).
  split; [exact Hout|]. split; [reflexivity|]. exact (Hfix _).
Defined.

(** C4, as stated, fails: after the "error" event of the first child the
    process is not alive, and job 1 is not recorded [failed]. *)
Lemma spawn_failure_is_not_recorded : ¬ spawn_failure_is_failed_outcome.
Proof.
  intros H.
  destruct (H (main 0) 1 0%nat
              (spawn (mkJob 1 "echo" ["Hello, World!"%string] running (Some 0)
                            None None None))
              "spawn echo ENOENT"%string) as [Hlive _].
  - by exists 0, [].
  - reflexivity.
  - reflexivity.
  - vm_compute in Hlive. discriminate Hlive.
Qed.

End SpawnFailure.

(** * The lifecycle of a row under the store calls *)

Module Lifecycle.
Import Store Runner Calls Pool StoreFacts PoolInvariant.

Section AnyZone.

(** Whatever zone the process runs in. *)
Context {zone : Runtime}.

(** C2 fails on the sweep.  Seed the empty table, claim at time 0 and sweep
    at time 20: the row of job 1 is [failed] and its [finished_at] is NULL.
    Before the sweep every row kept the two equivalences, and the
    write-back of the same job, whatever its close code, keeps them: it
    sets [finished_at].  So does every state the program itself passes
    through, where the sweep only ever meets the empty table. *)
Theorem sweep_leaves_finished_at_null :
  let swept := mkJob 1 "echo" ["Hello, World!"%string] failed (Some 0) None
                     None (Some "Job timed out"%string) in
  (Calls.run [] [Seed; ClaimNext 0; SweepStale 20]).2 !! 0%nat = Some swept ∧
  status swept = failed ∧ finished_at swept = None ∧ ¬ row_ok swept ∧
  Forall row_ok (Calls.run [] [Seed; ClaimNext 0]).2 ∧
  (∀ code now, row_ok (on_close code now (spawn swept))) ∧
  (∀ s, reachable s → Forall row_ok (db s)).
Proof.
  intros swept. split; [reflexivity|]. split; [reflexivity|].
  split; [reflexivity|]. split; [|split; [|split]].
  - intros [_ [_ H]]. by destruct (H (or_intror eq_refl)).
  - apply (bool_decide_unpack _). by vm_compute.
  - intros code now. unfold row_ok. cbn.
    destruct code as [[| |]|]; cbn; split; split; auto; congruence.
  - intros s Hs. by destruct (reachable_sound s Hs) as [(_ & Hrows & _) _ _].
Qed.

End AnyZone.

End Lifecycle.

(** * How the store calls compose *)

Module StoreLaws.
Import Store Runner Calls StoreFacts CallFacts StoreInvariant Ledger.

Section AnyZone.

(** Whatever zone the process runs in. *)
Context {zone : Runtime}.

(** ** Claims come in ascending order *)

Lemma above_rowwise m (db : table) (f : Job → Job) :
  (∀ r, id (f r) = id r) →
  (∀ r, status (f r) = pending → f r = r) →
  above m db → above m (f <$> db).
Proof.
  intros Hid Hst [Hne Hab]. split; [by destruct db|].
  intros r' (r & -> & Hr)%list_elem_of_fmap Hp.
  pose proof (Hst r Hp) as Heq. rewrite Heq in Hp |- *. by apply Hab.
Qed.

Lemma exec_above m db c :
  is_worker_call c → exact_ids db → above m db →
  match (exec db c).1 with
  | Some job => m < id job ∧ above (id job) (exec db c).2
  | None => above m (exec db c).2
  end.
Proof.
  intros Hc Hids Hab.
  destruct c as [|now|now|ch code now|job]; cbn [exec fst snd].
  - destruct Hab as [Hne ?]. by rewrite seedJobs_nonempty.
  - unfold sweepStaleJobs. rewrite update_returning_table.
    apply above_rowwise; [| |done]; intros r; by destruct (is_stale now r).
  - destruct (oldest_pending db) as [k|] eqn:E.
    + destruct (claimNextJob_Some now db k E) as (r & Hr & Hk & ->).
      destruct (oldest_pending_Some db k E) as [(p & Hp & Hpp & Hpk) Hmin].
      cbn [fst snd deserialize set_claimed id].
      rewrite (exact_ids_elem db r Hids Hr), Hk.
      destruct Hab as [Hne Hab]. split; [rewrite <- Hpk; by apply Hab|].
      split; [by destruct db|].
      intros r' (r0 & -> & Hr0)%list_elem_of_fmap Hp'.
      destruct (Z.eqb_spec (id r0) k) as [?|Hne']; [done|].
      specialize (Hmin r0 Hr0 Hp'). lia.
    + by rewrite claimNextJob_None.
  - unfold updateJob. cbn [snd]. rewrite update_returning_table.
    apply above_rowwise; [| |done]; intros r;
      destruct (id r =? _); try done.
    cbn. by destruct (status_of_code_settled code) as [-> | ->].
  - done.
Qed.

Lemma run_above cs : ∀ m db,
  forallb is_worker_call cs → exact_ids db → above m db →
  Forall (Z.lt m) (id <$> (run db cs).1) ∧
  StronglySorted Z.lt (id <$> (run db cs).1).
Proof.
  induction cs as [|c cs IH]; intros m db Hcs Hids Hab.
  - split; constructor.
  - apply andb_True in Hcs as [Hc Hcs]. fold (forallb is_worker_call cs) in Hcs.
    cbn [run]. pose proof (exec_above m db c Hc Hids Hab) as Hex.
    pose proof (exec_exact_ids db c Hids) as Hids'.
    destruct (exec db c) as [[job|] db'] eqn:E; cbn [fst snd] in Hex, Hids'.
    + destruct Hex as [Hlt Hab'].
      destruct (IH (id job) db' Hcs Hids' Hab') as [Hf Hs].
      destruct (run db' cs) as [rest db'']. cbn [fst from_option] in *.
      change ([job] ++ rest) with (job :: rest). rewrite fmap_cons. split.
      * constructor; [done|]. eapply Forall_impl; [done|]. cbn. lia.
      * by constructor.
    + destruct (IH m db' Hcs Hids' Hex) as [Hf Hs].
      by destruct (run db' cs) as [rest db''].
Qed.

(** Over any run of calls of the workers and the orchestrator, against
    any table whose ids are numbers JavaScript holds exactly (every id up
    to [Number.MAX_SAFE_INTEGER] is, so every table the program makes), the
    ids the claims return are strictly ascending: jobs are served oldest
    first, whatever is swept or written back in between. *)
Theorem claims_ascend db cs :
  exact_ids db → forallb is_worker_call cs →
  StronglySorted Z.lt (id <$> (Calls.run db cs).1).
Proof.
  revert db. induction cs as [|c cs IH]; intros db Hids Hcs; [constructor|].
  apply andb_True in Hcs as [Hc Hcs]. fold (forallb is_worker_call cs) in Hcs.
  pose proof (exec_exact_ids db c Hids) as Hids'.
  cbn [run]. destruct (exec db c) as [[job|] db'] eqn:E; cbn [snd] in Hids'.
  - assert (above (id job) db') as Hab.
    { destruct c as [|now|now|ch code now|job']; cbn [exec] in E;
        try by simplify_eq.
      destruct (oldest_pending db) as [k|] eqn:Ek;
        [|by rewrite claimNextJob_None in E].
      destruct (claimNextJob_Some now db k Ek) as (r & Hr & Hk & Heq).
      destruct (oldest_pending_Some db k Ek) as [_ Hmin].
      rewrite Heq in E. simplify_eq. cbn [deserialize set_claimed id].
      rewrite (exact_ids_elem db r Hids Hr).
      split; [by destruct db|].
      intros r' (r0 & -> & Hr0)%list_elem_of_fmap Hp'.
      destruct (Z.eqb_spec (id r0) (id r)) as [?|Hne']; [done|].
      specialize (Hmin r0 Hr0 Hp'). lia. }
    destruct (run_above cs (id job) db' Hcs Hids' Hab) as [Hf Hs].
    destruct (run db' cs) as [rest db'']. cbn [fst from_option] in *.
    change ([job] ++ rest) with (job :: rest). rewrite fmap_cons.
    by constructor.
  - specialize (IH db' Hids' Hcs). by destruct (run db' cs) as [rest db''].
Qed.

(** A claimed job never carries an empty text: a [stdout] or [stderr]
    that is NULL or empty in the row reads as null, any other text as it
    is.  The job is built by [deserialize] from a row the claim has just
    rewritten, which is [running] with [started_at = now]. *)
Theorem claimed_job_text_is_null_or_nonempty now db job :
  (claimNextJob now db).1 = Some job →
  stdout job ≠ Some ""%string ∧ stderr job ≠ Some ""%string ∧
  ∃ r, r ∈ (claimNextJob now db).2 ∧
       status r = running ∧ started_at r = Some now ∧
       job = deserialize r ∧
       (stdout r = None ∨ stdout r = Some ""%string → stdout job = None) ∧
       (∀ text, stdout r = Some text → text ≠ ""%string →
                stdout job = Some text) ∧
       (stderr r = None ∨ stderr r = Some ""%string → stderr job = None) ∧
       (∀ text, stderr r = Some text → text ≠ ""%string →
                stderr job = Some text).
Proof.
  intros Hc. destruct (oldest_pending db) as [k|] eqn:E;
    [|by rewrite claimNextJob_None in Hc].
  destruct (claimNextJob_Some now db k E) as (r & Hr & Hk & Heq).
  rewrite Heq in Hc |- *. cbn [fst snd] in *. simplify_eq.
  assert (∀ x, or_null x ≠ Some ""%string) as Hnon.
  { intros [s|]; cbn; [|done]. case_bool_decide; congruence. }
  split; [apply Hnon|]. split; [apply Hnon|].
  exists (set_claimed now r).
  split; [|split; [done|split; [done|split; [done|]]]].
  - apply list_elem_of_fmap. exists r. by rewrite Z.eqb_refl.
  - cbn [deserialize set_claimed stdout stderr]. repeat split.
    + intros [-> | ->]; [done|]. cbn. by rewrite bool_decide_true.
    + intros text -> Hne. cbn. by rewrite bool_decide_false.
    + intros [-> | ->]; [done|]. cbn. by rewrite bool_decide_true.
    + intros text -> Hne. cbn. by rewrite bool_decide_false.
Qed.

(** ** Claims drain the pending rows *)

Lemma claim_count now db :
  NoDup (id <$> db) →
  match claimNextJob now db with
  | (Some job, db') =>
      NoDup (id <$> db') ∧ S (pending_rows db') = pending_rows db
  | (None, db') => db' = db ∧ pending_rows db = 0%nat
  end.
Proof.
  intros Hkey. destruct (oldest_pending db) as [k|] eqn:E.
  - destruct (claimNextJob_Some now db k E) as (r & Hr & Hk & ->).
    destruct (oldest_pending_Some db k E) as [(p & Hp & Hpp & Hpk) _].
    assert (r = p) as -> by (apply (primary_key db); congruence).
    destruct (row_split db p Hp) as (l1 & l2 & ->). subst k.
    rewrite update_by_id by done. cbn [deserialize set_claimed id].
    split; [by rewrite fmap_app, fmap_cons in *|].
    rewrite !pending_rows_app, !pending_rows_cons.
    rewrite decide_False by done. rewrite decide_True by done. lia.
  - rewrite claimNextJob_None by done. split; [done|].
    unfold pending_rows, oldest_pending in *.
    apply order_asc_limit_1_None, fmap_nil_inv in E. by rewrite E.
Qed.

(** Under the primary key, a run of claims takes the pending rows one by
    one: as many claims succeed as there are calls, or pending rows if
    those are fewer, and each success leaves one pending row less; the claims
    past that return nothing. *)
Theorem claims_drain nows : ∀ db,
  NoDup (id <$> db) →
  length (Calls.run db (ClaimNext <$> nows)).1
  = Nat.min (length nows) (pending_rows db) ∧
  (pending_rows (Calls.run db (ClaimNext <$> nows)).2
   + length (Calls.run db (ClaimNext <$> nows)).1 = pending_rows db)%nat.
Proof.
  induction nows as [|now nows IH]; intros db Hkey.
  - cbn [fmap list_fmap run fst snd length]. split; [done|lia].
  - rewrite fmap_cons. cbn [run exec length].
    pose proof (claim_count now db Hkey) as Hc.
    destruct (claimNextJob now db) as [[job|] db'].
    + destruct Hc as (Hkey' & Hcount).
      destruct (IH db' Hkey') as [Hlen Hrem].
      destruct (run db' (ClaimNext <$> nows)) as [rest db''].
      cbn [fst snd from_option app length] in *. split; lia.
    + destruct Hc as [-> Hzero].
      destruct (IH db Hkey) as [Hlen Hrem].
      destruct (run db (ClaimNext <$> nows)) as [rest db''].
      cbn [fst snd from_option app length] in *. split; lia.
Qed.

(** ** Write-backs *)

Lemma updateJob_rowwise db job :
  (updateJob db job).2
  = (λ r, if id r =? id job then set_result job r else r) <$> db.
Proof. unfold updateJob. cbn [snd]. apply update_returning_table. Qed.

(** Of two write-backs for the same id the later one wins, all four
    columns; write-backs for different ids do not disturb each other, in
    either order.  In particular writing a job back twice is writing it
    back once. *)
Theorem updateJob_last_write_wins db j1 j2 :
  (updateJob (updateJob db j1).2 j2).2
  = if decide (id j1 = id j2) then (updateJob db j2).2
    else (updateJob (updateJob db j2).2 j1).2.
Proof.
  destruct (decide (id j1 = id j2)) as [E|Hne];
    rewrite !updateJob_rowwise, <- !list_fmap_compose;
    apply list_fmap_ext; intros _ r _; cbn [compose].
  - rewrite <- E. destruct (Z.eqb_spec (id r) (id j1)) as [Er|Hr].
    + cbn [set_result id]. by rewrite Er, Z.eqb_refl.
    + by rewrite (proj2 (Z.eqb_neq _ _) Hr).
  - destruct (Z.eqb_spec (id r) (id j1)) as [Er|Hr1],
             (Z.eqb_spec (id r) (id j2)) as [Er2|Hr2];
      cbn [set_result id]; try congruence.
    + rewrite (proj2 (Z.eqb_neq _ _) Hr2), Er. by rewrite Z.eqb_refl.
    + by rewrite (proj2 (Z.eqb_neq _ _) Hr1).
    + by rewrite (proj2 (Z.eqb_neq _ _) Hr1).
Qed.

(** A sweep is not the last word on a job: when the result of the job is
    written back after a sweep, its row is what the write-back alone would
    have left, whether or not the sweep had failed it. *)
Theorem write_back_overrides_sweep t (db : table) job (i : nat) r :
  db !! i = Some r → id r = id job →
  (updateJob (sweepStaleJobs t db) job).2 !! i = (updateJob db job).2 !! i ∧
  (updateJob (sweepStaleJobs t db) job).2 !! i = Some (set_result job r).
Proof.
  intros Hi Hid. unfold sweepStaleJobs.
  rewrite !updateJob_rowwise, update_returning_table, <- list_fmap_compose.
  rewrite !list_lookup_fmap, Hi. cbn [fmap option_fmap option_map compose].
  rewrite Hid, Z.eqb_refl.
  destruct (is_stale t r); cbn [set_timed_out id]; by rewrite Hid, Z.eqb_refl.
Qed.

(** ** A sweep before a claim *)

Lemma sweep_pending t (db : table) :
  filter (λ r, status r = pending)
         ((λ r, if is_stale t r then set_timed_out r else r) <$> db)
  = filter (λ r, status r = pending) db.
Proof.
  induction db as [|r db IH]; [done|]. rewrite fmap_cons, !filter_cons, IH.
  unfold is_stale. destruct r as [i c a [] sa fa so se]; cbn; try done.
  by destruct sa as [x|]; [destruct (x <? _)|].
Qed.

Lemma filter_by_key (db : table) p :
  NoDup (id <$> db) → p ∈ db →
  filter (λ r, id r =? id p) db = [p].
Proof.
  intros Hkey Hp. destruct (row_split db p Hp) as (l1 & l2 & ->).
  assert (∀ l, (∀ x, x ∈ l → x ∈ l1 ++ l2) →
               filter (λ r, id r =? id p) l = []) as Hnone.
  { induction l as [|x l IH]; intros Hl; [done|].
    rewrite filter_cons_False; [apply IH; intros; apply Hl; by right|].
    intros Heq%Is_true_true%Z.eqb_eq.
    rewrite fmap_app, fmap_cons in Hkey.
    apply NoDup_app in Hkey as (_ & Hd & [Hn _]%NoDup_cons).
    destruct (proj1 (elem_of_app _ _ _) (Hl x ltac:(left))) as [Hx|Hx].
    - apply (Hd (id x)); [by apply list_elem_of_fmap_2|]. rewrite Heq. left.
    - apply Hn. rewrite <- Heq. by apply list_elem_of_fmap_2. }
  rewrite filter_app, filter_cons_True by by rewrite Z.eqb_refl.
  rewrite !Hnone; [done|..]; intros x Hx; apply elem_of_app; auto.
Qed.

(** Under the primary key a sweep takes nothing from a claim: the claim
    returns the same job after the sweep as without it; and unless the
    claim is stamped more than the threshold before the sweep, claiming
    after sweeping leaves the table that sweeping after claiming leaves. *)
Theorem sweep_keeps_claim t now db :
  NoDup (id <$> db) →
  (claimNextJob now (sweepStaleJobs t db)).1 = (claimNextJob now db).1 ∧
  (t - stale_threshold ≤ now →
   (claimNextJob now (sweepStaleJobs t db)).2
   = sweepStaleJobs t (claimNextJob now db).2).
Proof.
  intros Hkey. unfold sweepStaleJobs. rewrite !update_returning_table.
  set (f := λ r, if is_stale t r then set_timed_out r else r).
  assert (∀ r, id (f r) = id r) as Hid
    by (intros r; unfold f; by destruct (is_stale t r)).
  assert (oldest_pending (f <$> db) = oldest_pending db) as Hold
    by (unfold oldest_pending, f; by rewrite sweep_pending).
  rewrite !claimNextJob_eq, Hold. cbn [fst snd].
  destruct (oldest_pending db) as [k|] eqn:E.
  - destruct (oldest_pending_Some db k E) as [(p & Hp & Hpp & <-) _].
    assert (f p = p) as Hfp
      by (unfold f, is_stale; rewrite Hpp; by rewrite bool_decide_false).
    cbn [id_is]. split.
    + rewrite (filter_by_key db p Hkey Hp).
      assert (filter (λ r, id r =? id p) (f <$> db) = [p]) as ->; [|done].
      assert (NoDup (id <$> (f <$> db))) as Hkey'.
      { rewrite <- list_fmap_compose.
        by rewrite (list_fmap_ext (id ∘ f) id db) by (intros; apply Hid). }
      pose proof (filter_by_key (f <$> db) (f p) Hkey'
                    (list_elem_of_fmap_2 f db p Hp)) as Hone.
      by rewrite Hfp in Hone.
    + intros Hnow. rewrite <- !list_fmap_compose.
      apply list_fmap_ext. intros i r Hr. cbn [compose]. rewrite Hid.
      destruct (Z.eqb_spec (id r) (id p)) as [Er|Hne]; [|done].
      assert (r = p) as ->.
      { apply (primary_key db); [done| |done..].
        by apply list_elem_of_lookup_2 in Hr. }
      rewrite Hfp. unfold f, is_stale. cbn [set_claimed status started_at].
      rewrite (proj2 (Z.ltb_ge _ _) Hnow). by rewrite andb_false_r.
  - split.
    + assert (∀ l : table, filter (λ r, id_is None r) l = []) as Hnil.
      { induction l as [|x l IH]; [done|].
        by rewrite filter_cons_False by intros []. }
      by rewrite !Hnil.
    + intros _. by rewrite !update_nothing by done.
Qed.

(** ** Rows are never lost or renamed *)

Lemma update_key_columns (w : Job → bool) (s : Job → Job) db :
  (∀ r, key_columns (s r) = key_columns r) →
  key_columns <$> (update_returning w s db).1 = key_columns <$> db.
Proof.
  intros Hs. rewrite update_returning_table, <- list_fmap_compose.
  apply list_fmap_ext. intros _ r _. cbn [compose]. by destruct (w r).
Qed.

Lemma claim_key_columns now db :
  key_columns <$> (claimNextJob now db).2 = key_columns <$> db.
Proof.
  unfold claimNextJob.
  pose proof (update_key_columns (id_is (oldest_pending db))
                (set_claimed now) db) as Hupd.
  destruct (update_returning _ _ db). by apply Hupd.
Qed.

Lemma updateJob_key_columns db job :
  key_columns <$> (updateJob db job).2 = key_columns <$> db.
Proof. by apply update_key_columns. Qed.

(** No call against the store deletes a row, reorders rows or changes the
    id, command or args of a job, an arbitrary update included; rows appear
    only when an empty table is seeded. *)
Theorem key_columns_kept db c :
  (c = Seed ∧ db = []) ∨
  key_columns <$> (exec db c).2 = key_columns <$> db.
Proof.
  destruct c as [|now|now|ch code now|job]; cbn [exec snd].
  - destruct db as [|r db]; [by left|right]. by rewrite seedJobs_nonempty.
  - right. by apply update_key_columns.
  - right. apply claim_key_columns.
  - right. apply updateJob_key_columns.
  - right. apply updateJob_key_columns.
Qed.

End AnyZone.

(** The examples that follow run in a process under UTC. *)
#[local] Existing Instance utc.

Lemma claims_ascend_witness :
  let cs := [ClaimNext 5; SweepStale 30; ClaimNext 31; Seed; ClaimNext 32] in
  (exact_ids (seedJobs []) ∧
   id <$> (Calls.run (seedJobs []) cs).1 = [1; 2; 3]) ∧
  StronglySorted Z.lt (id <$> (Calls.run (seedJobs []) cs).1).
Proof.
  intros cs.
  assert (exact_ids (seedJobs [])) as Hids
    by (apply (bool_decide_unpack _); by vm_compute).
  split; [split; [exact Hids|reflexivity]|].
  exact (claims_ascend (seedJobs []) cs Hids I).
Defined.

(** A pending row whose [stderr] holds the empty text, claimed at time 3
    in a process five hours behind UTC. *)
Lemma claimed_job_text_is_null_or_nonempty_witness :
  let db := [mkJob 7 "true" [] pending None None (Some "out") (Some "")] in
  let job := mkJob 7 "true" [] running (Some 18003) None (Some "out") None in
  (claimNextJob (zone := behind_utc 18000) 3 db).1 = Some job ∧
  stdout job ≠ Some ""%string ∧ stderr job ≠ Some ""%string.
Proof.
  intros db job. split; [reflexivity|].
  destruct (claimed_job_text_is_null_or_nonempty
              (zone := behind_utc 18000) 3 db job eq_refl)
    as (Ho & He & _). by split.
Defined.

(** Seven claims against the five seeded jobs: five succeed. *)
Lemma claims_drain_witness :
  let db := seedJobs [] in
  let nows := [1; 2; 3; 4; 5; 6; 7] in
  NoDup (id <$> db) ∧
  length (Calls.run db (ClaimNext <$> nows)).1 = 5%nat ∧
  pending_rows (Calls.run db (ClaimNext <$> nows)).2 = 0%nat.
Proof.
  intros db nows.
  assert (NoDup (id <$> db)) as Hkey
    by (apply (bool_decide_unpack _); by vm_compute).
  split; [exact Hkey|].
  destruct (claims_drain nows db Hkey) as [Hlen Hrem].
  split; [exact Hlen|]. rewrite Hlen in Hrem.
  exact (proj1 (Nat.add_cancel_r _ 0%nat 5%nat) Hrem).
Defined.

(** Job 1 is claimed at time 0 and swept at time 20; its child then closes
    with code 0: the row is [done], and the timeout marker is gone. *)
Lemma write_back_overrides_sweep_witness :
  let db := (claimNextJob 0 (seedJobs [])).2 in
  let r := mkJob 1 "echo" ["Hello, World!"%string] running (Some 0) None
                 None None in
  let job := on_close (Some 0) 21 (mkChild r "Hello, World!" "") in
  (db !! 0%nat = Some r ∧
   (status <$> sweepStaleJobs 20 db !! 0%nat) = Some failed) ∧
  (status <$> (updateJob (sweepStaleJobs 20 db) job).2 !! 0%nat) = Some done ∧
  (stderr <$> (updateJob (sweepStaleJobs 20 db) job).2 !! 0%nat)
  = Some (Some ""%string).
Proof.
  intros db r job. split; [split; reflexivity|].
  destruct (write_back_overrides_sweep 20 db job 0%nat r eq_refl eq_refl)
    as [_ ->]. split; reflexivity.
Defined.

(** The spec's stale job, with a pending one behind it: the claim returns
    job 2 with or without the sweep. *)
Lemma sweep_keeps_claim_witness :
  let db := (claimNextJob 0 (seedJobs [])).2 in
  NoDup (id <$> db) ∧
  (id <$> (claimNextJob 25 (sweepStaleJobs 20 db)).1) = Some 2 ∧
  (claimNextJob 25 (sweepStaleJobs 20 db)).1 = (claimNextJob 25 db).1.
Proof.
  intros db.
  assert (NoDup (id <$> db)) as Hkey
    by (apply (bool_decide_unpack _); by vm_compute).
  split; [exact Hkey|]. split; [reflexivity|].
  exact (proj1 (sweep_keeps_claim 20 25 db Hkey)).
Defined.

End StoreLaws.

(** * The books of the pool *)

Module PoolLedger.
Import Store Runner Calls Pool StoreFacts CallFacts StoreInvariant PoolSteps
  PoolInvariant Ledger StoreLaws.

Section AnyZone.

(** Whatever zone the process runs in. *)
Context {zone : Runtime}.

Lemma write_back_running db job r :
  status job ≠ running →
  r ∈ (updateJob db job).2 → status r = running → r ∈ db ∧ id r ≠ id job.
Proof.
  intros Hj. rewrite updateJob_rowwise.
  intros (r0 & -> & Hr0)%list_elem_of_fmap.
  destruct (Z.eqb_spec (id r0) (id job)); [by cbn|done].
Qed.

Lemma write_back_recorded db job :
  stdout job ≠ None → stderr job ≠ None →
  Forall recorded db → Forall recorded (updateJob db job).2.
Proof.
  intros Ho He Hrec. rewrite updateJob_rowwise, Forall_fmap.
  eapply Forall_impl; [exact Hrec|]. intros r Hr. cbn [compose].
  by destruct (id r =? id job).
Qed.

Lemma claim_rows now db next db' :
  exact_ids db →
  claimNextJob now db = (Some next, db') →
  (∀ r, r ∈ db' → status r = running → id r = id next ∨ r ∈ db) ∧
  (Forall recorded db → Forall recorded db').
Proof.
  intros Hids Hc. destruct (oldest_pending db) as [k|] eqn:E;
    [|by rewrite claimNextJob_None in Hc].
  destruct (claimNextJob_Some now db k E) as (p & Hp & Hk & Heq).
  rewrite Heq in Hc. simplify_eq. cbn [deserialize set_claimed id].
  rewrite (exact_ids_elem db p Hids Hp). split.
  - intros r (r0 & -> & Hr0)%list_elem_of_fmap Hrun.
    destruct (Z.eqb_spec (id r0) (id p)); [by left|by right].
  - intros Hrec. rewrite Forall_fmap. eapply Forall_impl; [exact Hrec|].
    intros r Hr. cbn [compose]. destruct (id r =? id p); [|done].
    by intros [?|?].
Qed.

Lemma no_pending_rows (db : table) r :
  pending_rows db = 0%nat → r ∈ db → status r ≠ pending.
Proof.
  unfold pending_rows. intros H%nil_length_inv Hr Hp.
  by apply (filter_nil_not_elem_of _ _ r H).
Qed.

Lemma halt_stopped (ws : list worker) : Stopped ∈ halt <$> ws → Stopped ∈ ws.
Proof.
  intros (w & Hw & Hin)%list_elem_of_fmap. by destruct w.
Qed.

Lemma resolve_tidy e s : e ≠ exit 0 None → tidy s → tidy (resolve e s).
Proof.
  intros He [Ho Hd Hr Hf]. split; cbn [resolve db pool outcome]; try done.
  - intros Hs. by apply Hd, halt_stopped.
  - intros [=]. by destruct He.
Qed.

Lemma data_tidy s w c c' :
  tidy s → outcome s = Live → pool s !! w = Some (Running c) →
  c_job c' = c_job c →
  tidy (mkSystem (db s) (<[w := Running c']> (pool s)) Live).
Proof.
  intros [Ho Hd Hr Hf] Hl Hw Hj.
  destruct (pool_at (pool s) w _ (Running c') Hw) as [Hp Hp'].
  set (l1 := take w (pool s)) in *. set (l2 := drop (S w) (pool s)) in *.
  split; cbn [db pool outcome]; try done.
  - intros _ r Hr' Hrun. specialize (Ho Hl r Hr' Hrun).
    unfold in_flight in *. cbn [pool]. rewrite Hp'. rewrite Hp in Ho.
    rewrite !flights_app, !flights_running in *. by rewrite Hj.
  - intros Hs. apply Hd. rewrite Hp. rewrite Hp' in Hs.
    rewrite elem_of_app, elem_of_cons in *.
    destruct Hs as [?|[?|?]]; auto. done.
Qed.

(** The close of a child in flight keeps the books. *)
Lemma close_tidy s now w c code :
  sound s → tidy s → outcome s = Live → pool s !! w = Some (Running c) →
  tidy (step s (now, Child w (Close code))).
Proof.
  intros [Hst Hap Hlv] [Ho Hd Hr Hf] Hl Hw.
  specialize (Ho Hl). unfold owned in Ho.
  unfold step. rewrite Hl, Hw. cbn [emit].
  set (job := on_close code now c).
  set (l1 := take w (pool s)). set (l2 := drop (S w) (pool s)).
  assert (pool s = l1 ++ Running c :: l2) as Hp
    by apply (pool_at _ _ _ Stopped Hw).
  assert (∀ y, <[w := y]> (pool s) = l1 ++ y :: l2) as Hp'
    by (intros y; by apply pool_at with (x := Running c)).
  assert (in_flight s = flights l1 ++ c_job c :: flights l2) as Hfl
    by (unfold in_flight; by rewrite Hp, flights_app).
  rewrite Hfl, fmap_app, fmap_cons in Hst, Hap, Ho.
  change (id (c_job c)) with (id job) in Hst, Hap, Ho.
  destruct (on_close_settled code now c) as [Hset Hfin].
  destruct (write_back_ok _ _ _ job Hst Hap Hset Hfin) as [Hst1 Hpend1].
  assert (status job ≠ running) as Hnr
    by (unfold job; destruct Hset as [-> | ->]; done).
  pose proof (write_back_running (db s) job) as Hwb.
  pose proof (write_back_recorded (db s) job) as Hrec1.
  set (db1 := (updateJob (db s) job).2) in *.
  assert (Forall recorded db1) as Hr1 by by apply Hrec1.
  assert (∀ r, r ∈ db1 → status r = running →
               id r ∈ (id <$> flights l1) ++ (id <$> flights l2)) as Ho1.
  { intros r Hr' Hrun. destruct (Hwb r Hnr Hr' Hrun) as [Hin Hne].
    specialize (Ho r Hin Hrun). rewrite elem_of_app, elem_of_cons in Ho.
    rewrite elem_of_app. destruct Ho as [?|[?|?]]; auto. done. }
  pose proof (claim_ok _ db1 now Hst1) as Hclaim.
  pose proof (λ next db2, claim_rows now db1 next db2
                (proj2 (proj2 (proj2 Hst1)))) as Hrows.
  unfold createWorkerLoop. cbn [isShuttingDown].
  destruct (claimNextJob now db1) as [[next|] db2].
  - destruct Hclaim as (_ & _ & Hpend2).
    destruct (Hrows next db2 eq_refl) as [Hrun2 Hrec2].
    unfold settle. cbn [pool]. rewrite Hp'.
    assert (forallb is_stopped (l1 ++ Running (spawn next) :: l2) = false) as ->.
    { apply not_true_is_false. rewrite forallb_app. cbn.
      rewrite andb_false_r. done. }
    split; cbn [db pool outcome]; [|
      |by apply Hrec2|done].
    + intros _ r Hr' Hrun. unfold in_flight. cbn [pool].
      rewrite flights_app, flights_running, fmap_app, fmap_cons.
      rewrite elem_of_app, elem_of_cons.
      destruct (Hrun2 r Hr' Hrun) as [->|Hin]; [auto|].
      specialize (Ho1 r Hin Hrun). rewrite elem_of_app in Ho1. tauto.
    + intros Hs. exfalso.
      assert (pending_rows (db s) = 0%nat) as Hzero.
      { apply Hd. rewrite Hp. rewrite elem_of_app, elem_of_cons in *.
        destruct Hs as [?|[?|?]]; auto. done. }
      lia.
  - destruct Hclaim as [-> Hnone].
    unfold settle. cbn [pool]. rewrite Hp'.
    destruct (forallb is_stopped (l1 ++ Stopped :: l2)) eqn:Hall.
    + assert (flights l1 = [] ∧ flights l2 = []) as [Hf1 Hf2].
      { rewrite forallb_app in Hall. cbn in Hall.
        apply andb_true_iff in Hall as [H1 H2].
        split; apply flights_stopped; by apply Is_true_true. }
      split; cbn [resolve db pool outcome]; try done.
      intros _ r Hr'.
      destruct (status r) eqn:Hs; auto.
      * by destruct (no_pending_rows db1 r Hnone Hr').
      * specialize (Ho1 r Hr' Hs). rewrite Hf1, Hf2 in Ho1.
        by apply elem_of_nil in Ho1.
    + split; cbn [db pool outcome]; try done.
      intros _ r Hr' Hrun. unfold in_flight. cbn [pool].
      rewrite flights_app. cbn [flights omap]. fold (flights l2).
      rewrite fmap_app. by apply Ho1.
Qed.

Lemma step_tidy s e : sound s → tidy s → tidy (step s e).
Proof.
  intros Hs Ht. destruct (outcome s) as [|x|err] eqn:Hl;
    [|by rewrite step_not_live by by rewrite Hl..].
  destruct e as [now [sg|w ev|error]].
  - unfold step. rewrite Hl. apply resolve_tidy; [by destruct sg|done].
  - destruct (pool s !! w) as [[c| |job]|] eqn:Hw;
      try (unfold step; by rewrite Hl, Hw).
    destruct ev as [d|d|code|error].
    + destruct (step_data s now w c (StdoutData d) _ Hl Hw eq_refl)
        as [Hj ->]. by apply data_tidy with (c := c).
    + destruct (step_data s now w c (StderrData d) _ Hl Hw eq_refl)
        as [Hj ->]. by apply data_tidy with (c := c).
    + by apply (close_tidy s now w c code).
    + unfold step. rewrite Hl, Hw. cbn [emit].
      destruct Ht as [Ho Hd Hr Hf]. by split.
  - unfold step. rewrite Hl. by apply resolve_tidy.
Qed.

Lemma main_tidy now : tidy (main now).
Proof.
  split.
  - intros _ r Hr Hrun.
    assert (Forall (λ r, status r = running → id r ∈ [1; 2; 3])
                   (db (main now))) as Hall
      by (apply (bool_decide_unpack _); by vm_compute).
    rewrite Forall_forall in Hall. by apply Hall.
  - intros Hs. exfalso.
    assert (Forall (λ w, ¬ is_stopped w) (pool (main now))) as Hall
      by (apply (bool_decide_unpack _); by vm_compute).
    rewrite Forall_forall in Hall. by apply (Hall Stopped Hs).
  - set (d := db (main now)). vm_compute in d. subst d.
    repeat (apply Forall_cons; split; [by intros [?|?]|]). by apply Forall_nil.
  - intros H. vm_compute in H. discriminate H.
Qed.

Lemma reachable_tidy s : reachable s → tidy s.
Proof.
  intros (now & es & ->). revert es.
  apply (rev_ind (λ es, tidy _)); [apply main_tidy|].
  intros e es IH. rewrite steps_app. apply step_tidy; [|done].
  apply reachable_sound. by exists now, es.
Qed.

Lemma step_keys s e : key_columns <$> db (step s e) = key_columns <$> db s.
Proof.
  destruct (outcome s) as [|x|err] eqn:Hl;
    [|by rewrite step_not_live by by rewrite Hl..].
  destruct e as [now [sg|w ev|error]]; unfold step; rewrite Hl; try done.
  destruct (pool s !! w) as [[c| |job]|]; try done.
  destruct (emit now ev c) as [c'|job|error]; try done.
  unfold createWorkerLoop. cbn [isShuttingDown].
  pose proof (updateJob_key_columns (db s) job) as Hk1.
  pose proof (claim_key_columns now (updateJob (db s) job).2) as Hk2.
  destruct (claimNextJob now _) as [[next|] db2]; cbn [snd] in Hk2;
    unfold settle; cbn [pool];
    destruct (forallb is_stopped _); cbn [resolve db]; congruence.
Qed.

Lemma reachable_steps s es : reachable s → reachable (steps s es).
Proof.
  intros (now & es0 & ->). exists now, (es0 ++ es). by rewrite steps_app.
Qed.

(** When the program exits through [exit(0)], the table holds the five
    seeded jobs, ids, commands and args as seeded, and every one of them is
    [done] or [failed] with [started_at], [finished_at], [stdout] and
    [stderr] set: no job is left pending or running, none is lost. *)
Theorem clean_exit_finishes_every_job s :
  reachable s → outcome s = Exited (exit 0 None) →
  key_columns <$> db s = key_columns <$> seedJobs [] ∧
  ∀ r, r ∈ db s →
    (status r = done ∨ status r = failed) ∧
    started_at r ≠ None ∧ finished_at r ≠ None ∧
    stdout r ≠ None ∧ stderr r ≠ None.
Proof.
  intros Hr Hx. split.
  - destruct Hr as (now & es & ->). clear Hx. revert es.
    apply (rev_ind (λ es, key_columns <$> db (steps _ es) = _)); [done|].
    intros e es IH. rewrite steps_app. unfold steps at 1. cbn [foldl].
    by rewrite step_keys.
  - intros r Hin.
    destruct (reachable_tidy s Hr) as [_ _ Hrec Hfin].
    destruct (reachable_sound s Hr) as [(_ & Hrows & _) _ _].
    rewrite Forall_forall in Hrec, Hrows.
    pose proof (Hfin Hx r Hin) as Hst.
    destruct (Hrows r Hin) as [Hsa Hfa], (Hrec r Hin Hst) as [Ho He].
    repeat split; try done.
    + apply Hsa. by destruct Hst as [-> | ->].
    + by apply Hfa.
Qed.

(** A job in flight when a signal or an error escaping the body ends the
    process stays [running] in the table, with no [finished_at], whatever
    arrives afterwards: nothing marks it failed. *)
Theorem interrupted_job_stays_running s now e job es :
  reachable s → outcome s = Live → job ∈ in_flight s →
  (∀ w ev, e ≠ Child w ev) →
  ∃ r, r ∈ db (steps s ((now, e) :: es)) ∧
       id r = id job ∧ status r = running ∧ finished_at r = None.
Proof.
  intros Hr Hl Hin He.
  destruct (reachable_sound s Hr) as [(_ & Hrows & Hfl & _) _ _].
  destruct (Hfl (id job)) as (r & Hr' & Hid & Hrun);
    [by apply list_elem_of_fmap_2|].
  exists r. unfold steps. cbn [foldl]. fold (steps (step s (now, e)) es).
  assert (∃ x, step s (now, e) = resolve x s) as [x Hx].
  { unfold step. rewrite Hl. destruct e as [sg|w ev|error]; eauto.
    by destruct (He w ev). }
  rewrite steps_not_live by by rewrite Hx.
  rewrite Hx. cbn [resolve db]. repeat split; try done.
  rewrite Forall_forall in Hrows. destruct (Hrows r Hr') as [_ Hfa].
  destruct (finished_at r); [|done].
  assert (status r = done ∨ status r = failed) as [?|?] by by apply Hfa.
  all: congruence.
Qed.

(** The test of [isShuttingDown] never fires: a worker leaves its loop if
    and only if no row is pending, and then it leaves the table as it is;
    otherwise it is suspended on the job that [claimNextJob] returned. *)
Theorem worker_stops_only_on_empty_queue now (db : table) :
  ((createWorkerLoop now db).1 = Stopped ↔
   ∀ r, r ∈ db → status r ≠ pending) ∧
  ((createWorkerLoop now db).1 = Stopped → (createWorkerLoop now db).2 = db) ∧
  ∀ c, (createWorkerLoop now db).1 = Running c →
       (claimNextJob now db).1 = Some (c_job c) ∧
       c_stdout c = ""%string ∧ c_stderr c = ""%string ∧
       (createWorkerLoop now db).2 = (claimNextJob now db).2.
Proof.
  unfold createWorkerLoop. cbn [isShuttingDown].
  destruct (oldest_pending db) as [k|] eqn:E.
  - destruct (claimNextJob_Some now db k E) as (r & Hr & Hk & ->).
    destruct (oldest_pending_Some db k E) as [(p & Hp & Hpp & _) _].
    cbn [fst snd]. split; [|split; [done|]].
    + split; [done|]. intros H. by destruct (H p Hp).
    + by intros c [= <-].
  - rewrite claimNextJob_None by done. cbn [fst snd].
    split; [|by split]. split; [|done]. intros _.
    by apply oldest_pending_None.
Qed.

Lemma step_stopped s e w :
  pool s !! w = Some Stopped → pool (step s e) !! w = Some Stopped.
Proof.
  intros Hw. destruct (outcome s) as [|x|err] eqn:Hl;
    [|by rewrite step_not_live by by rewrite Hl..].
  assert (∀ x, pool (resolve x s) !! w = Some Stopped) as Hres
    by (intros x; cbn [resolve pool]; by rewrite list_lookup_fmap, Hw).
  destruct e as [now [sg|w' ev|error]]; unfold step; rewrite Hl; try done.
  destruct (pool s !! w') as [[c| |job]|] eqn:Hw'; try done.
  assert (w ≠ w') as Hne by congruence.
  destruct (emit now ev c) as [c'|job|error]; cbn [pool].
  - by rewrite list_lookup_insert_ne.
  - destruct (createWorkerLoop now _) as [x db2].
    unfold settle. cbn [pool].
    destruct (forallb is_stopped _); cbn [resolve pool];
      [rewrite list_lookup_fmap|]; by rewrite list_lookup_insert_ne, Hw.
  - done.
Qed.

(** A worker leaves its loop only when no row is pending, and from then on
    it stays stopped and no row is ever pending again: no job comes to the
    queue that the worker would have missed. *)
Theorem stopped_worker_missed_nothing s w es :
  reachable s → pool s !! w = Some Stopped →
  pool (steps s es) !! w = Some Stopped ∧
  pending_rows (db (steps s es)) = 0%nat.
Proof.
  intros Hr Hw.
  assert (pool (steps s es) !! w = Some Stopped) as Hw'.
  { revert s Hr Hw. induction es as [|e es IH]; intros s Hr Hw; [done|].
    unfold steps. cbn [foldl]. apply IH; [|by apply step_stopped].
    by apply (reachable_steps s [e]). }
  split; [done|].
  destruct (reachable_tidy _ (reachable_steps s es Hr)) as [_ Hd _ _].
  apply Hd. by apply list_elem_of_lookup_2 in Hw'.
Qed.

End AnyZone.

(** The examples that follow run in a process under UTC. *)
#[local] Existing Instance utc.

(** A run of five closes, with codes 0, 1, null, 0 and 0. *)
Lemma clean_exit_finishes_every_job_witness :
  let es := [(1, Child 0 (Close (Some 0))); (2, Child 1 (Close (Some 1)));
             (3, Child 2 (Close None)); (4, Child 0 (Close (Some 0)));
             (5, Child 1 (Close (Some 0)))] in
  let s := steps (main 0) es in
  (reachable s ∧ outcome s = Exited (exit 0 None)) ∧
  status <$> db s = [done; failed; failed; done; done] ∧
  ∀ r, r ∈ db s → finished_at r ≠ None.
Proof.
  intros es s.
  assert (reachable s) as Hr by by exists 0, es.
  assert (outcome s = Exited (exit 0 None)) as Hx by by vm_compute.
  split; [by split|]. split; [by vm_compute|].
  intros r Hin.
  exact (proj1 (proj2 (proj2 (proj2 (clean_exit_finishes_every_job s Hr Hx)
                                r Hin)))).
Defined.

Lemma interrupted_job_stays_running_witness :
  let s := steps (main 0) [(1, Child 0 (Close (Some 0)))] in
  let job := mkJob 4 "date" [] running (Some 1) None None None in
  (reachable s ∧ outcome s = Live ∧ job ∈ in_flight s) ∧
  ∃ r, r ∈ db (steps s [(2, Signal SIGINT); (3, Signal SIGTERM)]) ∧
       id r = 4 ∧ status r = running ∧ finished_at r = None.
Proof.
  intros s job.
  assert (reachable s) as Hr by by exists 0, [(1, Child 0 (Close (Some 0)))].
  assert (outcome s = Live) as Hl by by vm_compute.
  assert (job ∈ in_flight s) as Hin
    by (apply (list_elem_of_lookup_2 _ 0%nat); by vm_compute).
  split; [by repeat split|].
  exact (interrupted_job_stays_running s 2 (Signal SIGINT) job
           [(3, Signal SIGTERM)] Hr Hl Hin (λ w ev, ltac:(discriminate))).
Defined.

(** Three closes into the run, the worker that closed job 3 has found the
    queue empty. *)
Lemma stopped_worker_missed_nothing_witness :
  let s := steps (main 0) [(1, Child 0 (Close (Some 0)));
                           (2, Child 1 (Close (Some 0)));
                           (3, Child 2 (Close (Some 0)))] in
  (reachable s ∧ pool s !! 2%nat = Some Stopped) ∧
  pool (steps s [(4, Child 0 (Close None))]) !! 2%nat = Some Stopped ∧
  pending_rows (db (steps s [(4, Child 0 (Close None))])) = 0%nat.
Proof.
  intros s.
  assert (reachable s) as Hr by by eexists 0, _.
  assert (pool s !! 2%nat = Some Stopped) as Hw by by vm_compute.
  split; [by split|].
  exact (stopped_worker_missed_nothing s 2 [(4, Child 0 (Close None))] Hr Hw).
Defined.

End PoolLedger.

(** * The listeners [main] leaves behind *)

Module HandlerFacts.
Import Pool Handlers.

Lemma remove_newest_app x (l l' : list (signal * listener)) :
  remove_newest x (l ++ l')
  = match remove_newest x l' with
    | Some r => Some (l ++ r)
    | None => (λ r, r ++ l') <$> remove_newest x l
    end.
Proof.
  induction l as [|y l IH]; cbn [app remove_newest].
  - by destruct (remove_newest x l').
  - rewrite IH. destruct (remove_newest x l') as [r|]; [done|].
    destruct (remove_newest x l) as [r|]; [done|]. cbn.
    by destruct (decide (x = y)).
Qed.

Lemma remove_newest_foreign ev key ls :
  remove_newest (ev, Interrupt key) (foreign ls) = None.
Proof.
  induction ls as [|[sg n] ls IH]; [done|].
  unfold foreign in *. rewrite fmap_cons. cbn [remove_newest].
  rewrite IH. by rewrite decide_False.
Qed.

(** Whatever listeners were registered before, after the [finally] of
    [main] the SIGINT listeners are those that were there before, and the
    SIGTERM listeners are those plus [interrupt.SIGTERM]: the second
    [process.off] names the other closure and removes nothing. *)
Theorem sigterm_listener_stays ls :
  unregister (register (foreign ls))
  = foreign ls ++ [(SIGTERM, Interrupt SIGTERM)] ∧
  listening SIGINT (unregister (register (foreign ls)))
  = listening SIGINT (foreign ls) ∧
  listening SIGTERM (unregister (register (foreign ls)))
  = listening SIGTERM (foreign ls) ++ [Interrupt SIGTERM].
Proof.
  assert (unregister (register (foreign ls))
          = foreign ls ++ [(SIGTERM, Interrupt SIGTERM)]) as ->.
  { unfold unregister, register, process_on, process_off.
    rewrite <- app_assoc. cbn [app].
    rewrite (remove_newest_app (SIGINT, Interrupt SIGINT) (foreign ls)
               [(SIGINT, Interrupt SIGINT); (SIGTERM, Interrupt SIGTERM)]).
    change (remove_newest (SIGINT, Interrupt SIGINT)
              [(SIGINT, Interrupt SIGINT); (SIGTERM, Interrupt SIGTERM)])
      with (Some [(SIGTERM, Interrupt SIGTERM)]).
    cbn [from_option]. unfold id.
    rewrite (remove_newest_app (SIGTERM, Interrupt SIGINT) (foreign ls)
               [(SIGTERM, Interrupt SIGTERM)]).
    change (remove_newest (SIGTERM, Interrupt SIGINT)
              [(SIGTERM, Interrupt SIGTERM)])
      with (@None (list (signal * listener))).
    by rewrite remove_newest_foreign. }
  split; [done|]. unfold listening. rewrite !filter_app, !fmap_app.
  rewrite filter_cons_False, filter_cons_True by done.
  by rewrite filter_nil, app_nil_r.
Qed.

End HandlerFacts.

(** * The generator runner *)

Module GeneratorFacts.
Import Store Generators.

(** [run(greet(name))] settles for pizza when the prompt fails and when
    the reply does not parse; when the reply parses it greets with the text
    of the parsed value, and rejects when that value has no text: the
    template literal is outside the [try].  So it rejects exactly when the
    reply parses to a value that cannot be rendered, with the error of the
    rendering. *)
Theorem greet_rejects_only_on_rendering llm_prompt JSON_parse name :
  run (greet llm_prompt JSON_parse name)
  = match llm_prompt (prompt_text name) with
    | Returns reply =>
        match JSON_parse reply with
        | Returns food =>
            match to_string food with
            | Returns text => Returns (VString (greeting name text))
            | Throws error => Throws error
            end
        | Throws _ => Returns (VString (greeting name "pizza"))
        end
    | Throws _ => Returns (VString (greeting name "pizza"))
    end ∧
  ∀ error,
    run (greet llm_prompt JSON_parse name) = Throws error ↔
    ∃ reply food,
      llm_prompt (prompt_text name) = Returns reply ∧
      JSON_parse reply = Returns food ∧ to_string food = Throws error.
Proof.
  assert (run (greet llm_prompt JSON_parse name)
          = match llm_prompt (prompt_text name) with
            | Returns reply =>
                match JSON_parse reply with
                | Returns food =>
                    match to_string food with
                    | Returns text => Returns (VString (greeting name text))
                    | Throws error => Throws error
                    end
                | Throws _ => Returns (VString (greeting name "pizza"))
                end
            | Throws _ => Returns (VString (greeting name "pizza"))
            end) as Heq.
  { cbn. destruct (llm_prompt (prompt_text name)) as [reply|e]; cbn; [|done].
    destruct (JSON_parse reply) as [food|e]; cbn; [|done].
    by destruct (to_string food). }
  split; [exact Heq|]. intros error. rewrite Heq. split.
  - destruct (llm_prompt (prompt_text name)) as [reply|e]; [|done].
    destruct (JSON_parse reply) as [food|e] eqn:Hp; [|done].
    destruct (to_string food) as [text|e] eqn:Ht; [done|].
    intros [= ->]. by exists reply, food.
  - intros (reply & food & -> & -> & ->). done.
Qed.

(** Three replies of the model: a quoted food, a text that is no JSON, and
    an object whose [toString] entry is the number 1. *)
Lemma greet_rejects_only_on_rendering_witness :
  let curry := dquote +:+ "laksa" +:+ dquote in
  let object := "{" +:+ dquote +:+ "toString" +:+ dquote +:+ ":1}" in
  let type_error := "TypeError: Cannot convert object to primitive value" in
  let JSON_parse text :=
    if decide (text = curry) then Returns (VString "laksa")
    else if decide (text = object) then Returns (VOther (Throws type_error))
    else Throws "SyntaxError: Unexpected token" in
  run (greet (λ _, Returns curry) JSON_parse "Meks")
  = Returns (VString "Hello Meks, would you like to try some laksa?") ∧
  run (greet (λ _, Returns "laksa") JSON_parse "Meks")
  = Returns (VString "Hello Meks, would you like to try some pizza?") ∧
  run (greet (λ _, Throws "llm: command not found") JSON_parse "Meks")
  = Returns (VString "Hello Meks, would you like to try some pizza?") ∧
  run (greet (λ _, Returns object) JSON_parse "Meks") = Throws type_error.
Proof.
  intros curry object type_error JSON_parse.
  split; [|split; [|split]].
  - rewrite (proj1 (greet_rejects_only_on_rendering _ JSON_parse "Meks")).
    reflexivity.
  - rewrite (proj1 (greet_rejects_only_on_rendering _ JSON_parse "Meks")).
    reflexivity.
  - rewrite (proj1 (greet_rejects_only_on_rendering _ JSON_parse "Meks")).
    reflexivity.
  - apply (proj2 (greet_rejects_only_on_rendering _ JSON_parse "Meks")).
    exists object, (VOther (Throws type_error)). by repeat split.
Defined.

(** [run(suggestFavouriteFood(name))] has no such net: it rejects with the
    error of the prompt when the prompt fails, and with the error of
    [JSON.parse] when the reply does not parse. *)
Theorem suggestFavouriteFood_passes_errors llm_prompt JSON_parse name :
  run (suggestFavouriteFood llm_prompt JSON_parse name)
  = match llm_prompt (prompt_text name) with
    | Returns reply => JSON_parse reply
    | Throws error => Throws error
    end.
Proof.
  cbn. destruct (llm_prompt (prompt_text name)) as [reply|e]; cbn; [|done].
  by destruct (JSON_parse reply).
Qed.

End GeneratorFacts.

(** * The set of fetches in progress *)

Module FetchFacts.
Import Fetching.

Lemma remove_one_other url u (l : list string) :
  u ≠ url → u ∈ l → u ∈ remove_one url l.
Proof.
  intros Hne. induction l as [|x l IH]; [done|]. cbn.
  intros [->|Hu]%elem_of_cons.
  - rewrite decide_False by done. left.
  - destruct (decide (x = url)); [done|]. right. by apply IH.
Qed.

Lemma remove_one_NoDup url (l : list string) :
  NoDup l →
  NoDup (remove_one url l) ∧ ∀ u, u ∈ remove_one url l ↔ u ∈ l ∧ u ≠ url.
Proof.
  induction l as [|x l IH].
  { intros _. split; [constructor|]. intros u. cbn. rewrite elem_of_nil. tauto. }
  intros [Hx Hl]%NoDup_cons. cbn. destruct (decide (x = url)) as [->|Hne].
  - split; [done|]. intros u. rewrite elem_of_cons. split.
    + intros Hu. split; [by right|]. by intros ->.
    + by intros [[->|?] ?].
  - destruct (IH Hl) as [Hnd Hin]. split.
    + apply NoDup_cons. split; [|done]. rewrite Hin. tauto.
    + intros u. rewrite !elem_of_cons, Hin. split.
      * intros [->|[? ?]]; auto.
      * intros [[->|?] ?]; auto.
Qed.

(** Whatever is called and however the requests settle, fulfilled or
    rejected, the set holds no url without a call of [fetch] still waiting
    for it: the [finally] leaves no stale entry. *)
Theorem no_stale_url es u :
  u ∈ fetchInProgress (steps start es) → u ∈ awaiting (steps start es).
Proof.
  revert u. revert es.
  apply (rev_ind (λ es, ∀ u, u ∈ fetchInProgress (steps start es) →
                                       u ∈ awaiting (steps start es))).
  - intros u. cbn. by intros ?%elem_of_empty.
  - intros e es IH u. unfold steps. rewrite foldl_app. cbn [foldl].
    fold (steps start es). destruct e as [url|url]; cbn [step].
    + cbn. rewrite elem_of_union, elem_of_singleton, elem_of_cons.
      intros [->|Hu]; auto.
    + destruct (decide (url ∈ awaiting (steps start es))); [|by apply IH].
      cbn. rewrite elem_of_difference, elem_of_singleton.
      intros [Hu Hne]. apply remove_one_other; [done|]. by apply IH.
Qed.

Lemma no_stale_url_witness :
  let es := [Call "a"; Call "b"]%string in
  "a"%string ∈ fetchInProgress (steps start es) ∧
  "a"%string ∈ awaiting (steps start es).
Proof.
  intros es.
  assert ("a"%string ∈ fetchInProgress (steps start es)) as Hin.
  { unfold es, steps. cbn [foldl step fetchInProgress awaiting start].
    rewrite !elem_of_union, !elem_of_singleton. auto. }
  split; [exact Hin|]. exact (no_stale_url es _ Hin).
Defined.

(** As long as no url is requested while a request for it is in flight, the
    set is exactly the set of urls in flight. *)
Theorem tracks_distinct_urls es :
  one_at_a_time start es →
  NoDup (awaiting (steps start es)) ∧
  fetchInProgress (steps start es) = list_to_set (awaiting (steps start es)).
Proof.
  assert (∀ t, NoDup (awaiting t) →
               fetchInProgress t = list_to_set (awaiting t) →
               one_at_a_time t es →
               NoDup (awaiting (steps t es)) ∧
               fetchInProgress (steps t es)
               = list_to_set (awaiting (steps t es))) as Hgen.
  { induction es as [|e es IH]; intros t Hnd Hset Hone; [done|].
    destruct Hone as [He Hone]. unfold steps. cbn [foldl].
    apply IH; [| |done]; destruct e as [url|url]; cbn [step].
    - cbn. by apply NoDup_cons.
    - destruct (decide (url ∈ awaiting t)); [|done]. cbn.
      by apply remove_one_NoDup.
    - cbn. by rewrite Hset.
    - destruct (decide (url ∈ awaiting t)); [|done]. cbn.
      destruct (remove_one_NoDup url (awaiting t) Hnd) as [_ Hin].
      apply set_eq. intros u.
      rewrite elem_of_difference, elem_of_singleton, Hset.
      by rewrite !elem_of_list_to_set, Hin. }
  apply Hgen; [constructor|done].
Qed.

Lemma tracks_distinct_urls_witness :
  let es := [Call "a"; Call "b"; Settle "a"; Call "a"]%string in
  one_at_a_time start es ∧
  fetchInProgress (steps start es)
  = list_to_set (awaiting (steps start es)).
Proof.
  intros es.
  assert (one_at_a_time start es) as Hone.
  { cbn. repeat split; try done.
    - by apply not_elem_of_nil.
    - by intros [[=]|[]%elem_of_nil]%elem_of_cons.
    - by intros [[=]|[]%elem_of_nil]%elem_of_cons. }
  split; [exact Hone|]. exact (proj2 (tracks_distinct_urls es Hone)).
Defined.

(** Two requests for one url in flight together: when the first settles,
    the url leaves the set although the other request is still awaited. *)
Theorem concurrent_same_url_is_forgotten t u :
  u ∈ awaiting t →
  (u ∉ fetchInProgress (steps t [Call u; Settle u])) ∧
  u ∈ awaiting (steps t [Call u; Settle u]).
Proof.
  intros Hu. unfold steps. cbn [foldl step awaiting fetchInProgress].
  rewrite decide_True by left. cbn. rewrite decide_True by done.
  split; [|done]. rewrite elem_of_difference, elem_of_singleton. tauto.
Qed.

Lemma concurrent_same_url_is_forgotten_witness :
  let t := steps start [Call "a"%string] in
  "a"%string ∈ awaiting t ∧
  ("a"%string ∉ fetchInProgress (steps t [Call "a"; Settle "a"]%string)) ∧
  "a"%string ∈ awaiting (steps t [Call "a"; Settle "a"]%string).
Proof.
  intros t.
  assert ("a"%string ∈ awaiting t) as Hu by (cbn; left).
  split; [exact Hu|]. exact (concurrent_same_url_is_forgotten t _ Hu).
Defined.

End FetchFacts.

(** * The text a child writes *)

Module OutputFacts.
Import Store Runner SpawnFailure.

Lemma append_assoc (a b c : string) : (a +:+ b) +:+ c = a +:+ (b +:+ c).
Proof.
  induction a as [|x a IH]; [done|].
  change (String x ((a +:+ b) +:+ c) = String x (a +:+ (b +:+ c))).
  by f_equal.
Qed.

Lemma append_nil_r (a : string) : a +:+ "" = a.
Proof.
  induction a as [|x a IH]; [done|].
  change (String x (a +:+ "") = String x a). by f_equal.
Qed.

Lemma stdout_from acc (evs : list (Date * child_event)) :
  foldl (λ acc e, match e.2 with StdoutData d => acc +:+ d | _ => acc end)
        acc evs
  = acc +:+ stdout_text evs.
Proof.
  unfold stdout_text. revert acc.
  induction evs as [|[now ev] evs IH]; intros acc; cbn [foldl snd].
  - by rewrite append_nil_r.
  - rewrite IH. destruct ev as [d| | |]; try done.
    rewrite (IH ("" +:+ d)%string). by rewrite append_assoc.
Qed.

Lemma stderr_from acc (evs : list (Date * child_event)) :
  foldl (λ acc e, match e.2 with StderrData d => acc +:+ d | _ => acc end)
        acc evs
  = acc +:+ stderr_text evs.
Proof.
  unfold stderr_text. revert acc.
  induction evs as [|[now ev] evs IH]; intros acc; cbn [foldl snd].
  - by rewrite append_nil_r.
  - rewrite IH. destruct ev as [|d| |]; try done.
    rewrite (IH ("" +:+ d)%string). by rewrite append_assoc.
Qed.

Lemma stdout_text_app (a b : list (Date * child_event)) :
  stdout_text (a ++ b) = stdout_text a +:+ stdout_text b.
Proof.
  unfold stdout_text at 1. rewrite foldl_app. fold (stdout_text a).
  apply stdout_from.
Qed.

Lemma stderr_text_app (a b : list (Date * child_event)) :
  stderr_text (a ++ b) = stderr_text a +:+ stderr_text b.
Proof.
  unfold stderr_text at 1. rewrite foldl_app. fold (stderr_text a).
  apply stderr_from.
Qed.

(** What [spawnJob] resolves with when its child closes after a run of
    data events. *)
Lemma spawnJob_output job evs now code :
  Forall (λ e, is_data e.2) evs →
  output (spawnJob job (evs ++ [(now, Close code)]))
  = Some (stdout_text evs, stderr_text evs).
Proof.
  intros Hd. unfold spawnJob. by rewrite run_child_data, feed_spawn.
Qed.

(** What [spawnJob] captures.  A child that closes without having written
    resolves its job with two empty texts.  Of a child that writes and then
    closes, each text is that of the chunks of its stream in the order they
    arrived: when the events of one child are those of a second followed by
    those of a third, its two texts are those of the second followed by
    those of the third; a chunk on [stdout] in between goes into [stdout]
    at its place and leaves [stderr] as it is, and the other way round. *)
Theorem captured_text_concatenates job evs1 evs2 now code t d :
  Forall (λ e, is_data e.2) evs1 → Forall (λ e, is_data e.2) evs2 →
  let close := (now, Close code) in
  output (spawnJob job [close]) = Some (""%string, ""%string) ∧
  ∃ out1 err1 out2 err2,
    output (spawnJob job (evs1 ++ [close])) = Some (out1, err1) ∧
    output (spawnJob job (evs2 ++ [close])) = Some (out2, err2) ∧
    output (spawnJob job ((evs1 ++ evs2) ++ [close]))
    = Some (out1 +:+ out2, err1 +:+ err2) ∧
    output (spawnJob job ((evs1 ++ (t, StdoutData d) :: evs2) ++ [close]))
    = Some (out1 +:+ d +:+ out2, err1 +:+ err2) ∧
    output (spawnJob job ((evs1 ++ (t, StderrData d) :: evs2) ++ [close]))
    = Some (out1 +:+ out2, err1 +:+ d +:+ err2).
Proof.
  intros H1 H2 close. subst close. split; [done|].
  exists (stdout_text evs1), (stderr_text evs1),
         (stdout_text evs2), (stderr_text evs2).
  assert (∀ ev, is_data ev →
            Forall (λ e : Date * child_event, is_data e.2)
                   (evs1 ++ (t, ev) :: evs2)) as Hmid.
  { intros ev Hev. apply Forall_app. split; [done|]. by apply Forall_cons. }
  split; [by apply spawnJob_output|]. split; [by apply spawnJob_output|].
  split; [|split].
  - rewrite spawnJob_output by by apply Forall_app.
    by rewrite stdout_text_app, stderr_text_app.
  - rewrite spawnJob_output by by apply Hmid.
    rewrite stdout_text_app, stderr_text_app.
    change ((t, StdoutData d) :: evs2) with ([(t, StdoutData d)] ++ evs2).
    rewrite stdout_text_app, stderr_text_app.
    change (stdout_text [(t, StdoutData d)]) with ("" +:+ d)%string.
    change (stderr_text [(t, StdoutData d)]) with ""%string.
    done.
  - rewrite spawnJob_output by by apply Hmid.
    rewrite stdout_text_app, stderr_text_app.
    change ((t, StderrData d) :: evs2) with ([(t, StderrData d)] ++ evs2).
    rewrite stdout_text_app, stderr_text_app.
    change (stdout_text [(t, StderrData d)]) with ""%string.
    change (stderr_text [(t, StderrData d)]) with ("" +:+ d)%string.
    done.
Qed.

(** A child that writes on both streams, the chunks interleaved. *)
Lemma captured_text_concatenates_witness :
  let job := mkJob 2 "ls" ["-l"%string] running (Some 0) None None None in
  let evs1 := [(1, StdoutData "total "); (2, StderrData "ls: ")] in
  let evs2 := [(4, StderrData "denied"); (5, StdoutData " b.txt")] in
  output (spawnJob job ((evs1 ++ (3, StdoutData "8 a.txt") :: evs2)
                        ++ [(6, Close (Some 1))]))
  = Some ("total 8 a.txt b.txt"%string, "ls: denied"%string).
Proof.
  intros job evs1 evs2.
  assert (Forall (λ e : Date * child_event, is_data e.2) evs1) as H1
    by (apply (bool_decide_unpack _); by vm_compute).
  assert (Forall (λ e : Date * child_event, is_data e.2) evs2) as H2
    by (apply (bool_decide_unpack _); by vm_compute).
  destruct (captured_text_concatenates job evs1 evs2 6 (Some 1) 3 "8 a.txt"
              H1 H2) as (_ & o1 & e1 & o2 & e2 & Ha & Hb & _ & Hc & _).
  vm_compute in Ha, Hb. simplify_eq. exact Hc.
Defined.

End OutputFacts.

(** * Rows over a run of the program *)

Module RowHistory.
Import Store Runner Calls Pool StoreFacts CallFacts StoreInvariant PoolSteps
  PoolInvariant Ledger StoreLaws PoolLedger.

Section AnyZone.

(** Whatever zone the process runs in. *)
Context {zone : Runtime}.

Lemma ids_of_key_columns (db1 db2 : table) :
  key_columns <$> db1 = key_columns <$> db2 → id <$> db1 = id <$> db2.
Proof.
  intros H. apply (f_equal (fmap (λ k : Z * string * list string, k.1.1))) in H.
  by rewrite <- !list_fmap_compose in H.
Qed.

(** One event leaves every row in its place with its id; a [started_at]
    that is set stays as it is, and a row that is [done] or [failed] stays
    as it is altogether. *)
Lemma step_settled s e (i : nat) r :
  sound s → db s !! i = Some r →
  ∃ r', db (step s e) !! i = Some r' ∧ id r' = id r ∧
        (started_at r ≠ None → started_at r' = started_at r) ∧
        (status r = done ∨ status r = failed → r' = r).
Proof.
  intros [(Hkey & Hrows & Hfl & _) _ _] Hi.
  assert (∃ r', db s !! i = Some r' ∧ id r' = id r ∧
            (started_at r ≠ None → started_at r' = started_at r) ∧
            (status r = done ∨ status r = failed → r' = r)) as Hsame
    by (by exists r).
  destruct (outcome s) as [|x|err] eqn:Hl;
    [|by rewrite step_not_live by by rewrite Hl..].
  destruct e as [now [sg|w ev|error]]; unfold step; rewrite Hl; try done.
  destruct (pool s !! w) as [[c| |job]|] eqn:Hw; try done.
  destruct ev as [d|d|code|error]; cbn [emit]; try done.
  set (job := on_close code now c).
  assert (job0 : c_job c ∈ in_flight s).
  { unfold in_flight. apply list_elem_of_omap. exists (Running c).
    split; [by apply list_elem_of_lookup_2 in Hw|done]. }
  destruct (Hfl (id job)) as (r0 & Hr0 & Hid0 & Hrun0);
    [by apply (list_elem_of_fmap_2 id) in job0|].
  assert (r ∈ db s) as Hr by by apply list_elem_of_lookup_2 in Hi.
  destruct (on_close_settled code now c) as [Hset _].
  fold job in Hset.
  set (f := λ r, if id r =? id job then set_result job r else r).
  assert ((updateJob (db s) job).2 = f <$> db s) as Hdb1
    by apply updateJob_rowwise.
  assert (started_at (f r) = started_at r ∧ id (f r) = id r) as [Hsa Hidf]
    by (unfold f; by destruct (id r =? id job)).
  assert (status r = done ∨ status r = failed → f r = r) as Hterm.
  { intros Hst. unfold f. destruct (Z.eqb_spec (id r) (id job)) as [E|]; [|done].
    assert (r = r0) as -> by (apply (primary_key (db s)); congruence).
    destruct Hst; congruence. }
  assert (NoDup (id <$> (updateJob (db s) job).2)) as Hkey1
    by by rewrite (ids_of_key_columns _ _ (updateJob_key_columns (db s) job)).
  assert ((updateJob (db s) job).2 !! i = Some (f r)) as Hi1
    by by rewrite Hdb1, list_lookup_fmap, Hi.
  unfold createWorkerLoop. cbn [isShuttingDown].
  set (db1 := (updateJob (db s) job).2) in *.
  assert (∃ r', (claimNextJob now db1).2 !! i = Some r' ∧ id r' = id r ∧
            (started_at r ≠ None → started_at r' = started_at r) ∧
            (status r = done ∨ status r = failed → r' = r)) as Hclaim.
  { destruct (oldest_pending db1) as [k|] eqn:E.
    - destruct (claimNextJob_Some now db1 k E) as (q0 & _ & _ & ->).
      destruct (oldest_pending_Some db1 k E) as [(p & Hp & Hpp & <-) _].
      cbn [snd]. rewrite list_lookup_fmap, Hi1. cbn [fmap option_fmap option_map].
      destruct (Z.eqb_spec (id (f r)) (id p)) as [E'|Hne].
      + assert (f r = p) as Hfp.
        { apply (primary_key db1); [done| |done..].
          by apply list_elem_of_lookup_2 in Hi1. }
        assert (started_at r = None ∧ status (f r) = pending) as [Hnone Hpf].
        { rewrite Hfp. split; [|done]. rewrite <- Hsa, Hfp.
          assert (p ∈ f <$> db s) as (q & Hq & Hqin)%list_elem_of_fmap
            by by rewrite <- Hdb1.
          assert (f q = q) as Hfq.
          { unfold f in *. destruct (id q =? id job); [|done].
            rewrite Hq in Hpp. cbn [set_result status] in Hpp.
            destruct Hset; congruence. }
          rewrite Hfq in Hq. subst q.
          rewrite Forall_forall in Hrows. destruct (Hrows p Hqin) as [Hs _].
          destruct (started_at p); [|done].
          assert (status p ≠ pending) by by apply Hs. done. }
        eexists. split; [done|]. cbn [set_claimed id]. split; [done|].
        split; [by rewrite Hnone|].
        intros Hst. rewrite (Hterm Hst) in Hpf. destruct Hst; congruence.
      + exists (f r). split; [done|]. split; [done|].
        split; [by rewrite Hsa|done].
    - rewrite claimNextJob_None by done. exists (f r). cbn [snd].
      split; [done|]. split; [done|]. split; [by rewrite Hsa|done]. }
  destruct (claimNextJob now db1) as [[next|] db2]; cbn [snd] in Hclaim;
    unfold settle; cbn [pool];
    by destruct (forallb is_stopped _).
Qed.

(** In a run of the program a row keeps its place and its id; its
    [started_at], once set, is never set again; and once the row is [done]
    or [failed] nothing changes it any more. *)
Theorem settled_rows_stay s es (i : nat) r :
  reachable s → db s !! i = Some r →
  ∃ r', db (steps s es) !! i = Some r' ∧ id r' = id r ∧
        (started_at r ≠ None → started_at r' = started_at r) ∧
        (status r = done ∨ status r = failed → r' = r).
Proof.
  revert s r. induction es as [|e es IH]; intros s r Hs Hi.
  - by exists r.
  - destruct (step_settled s e i r (reachable_sound s Hs) Hi)
      as (r1 & Hi1 & Hid1 & Hsa1 & Hterm1).
    unfold steps. cbn [foldl]. fold (steps (step s e) es).
    destruct (IH (step s e) r1 (reachable_steps s [e] Hs) Hi1)
      as (r2 & Hi2 & Hid2 & Hsa2 & Hterm2).
    exists r2. split; [done|]. split; [congruence|]. split.
    + intros Hset. specialize (Hsa1 Hset). rewrite <- Hsa1.
      apply Hsa2. by rewrite Hsa1.
    + intros Hst. specialize (Hterm1 Hst). subst r1. by apply Hterm2.
Qed.

(** ** Busy workers *)

Lemma step_pool_length s e : length (pool (step s e)) = length (pool s).
Proof.
  destruct (outcome s) as [|x|err] eqn:Hl;
    [|by rewrite step_not_live by by rewrite Hl..].
  destruct e as [now [sg|w ev|error]]; unfold step; rewrite Hl;
    cbn [resolve pool]; try by rewrite length_fmap.
  destruct (pool s !! w) as [[c| |job]|]; try done.
  destruct (emit now ev c) as [c'|job|error]; cbn [pool];
    [by rewrite length_insert| |done].
  destruct (createWorkerLoop now _) as [x db2]. unfold settle. cbn [pool].
  destruct (forallb is_stopped _); cbn [resolve pool];
    by rewrite ?length_fmap, length_insert.
Qed.

Lemma flights_all (ws : list worker) :
  Forall (λ w, ¬ is_killed w) ws → Stopped ∉ ws →
  length (flights ws) = length ws.
Proof.
  induction ws as [|[c| |job] ws IH]; intros Hk Hs; [done|..].
  - apply Forall_cons in Hk as [_ Hk]. rewrite flights_running. cbn [length].
    f_equal. apply IH; [done|]. intros Hin. apply Hs. by right.
  - destruct Hs. left.
  - apply Forall_cons in Hk as [Hk _]. by destruct Hk.
Qed.

(** While the process lives some child is in flight, and as long as a row
    is pending all three workers have one: no worker idles while there is
    work, and the pool never waits on nothing. *)
Theorem workers_busy_while_pending s :
  reachable s → outcome s = Live →
  length (pool s) = 3%nat ∧ in_flight s ≠ [] ∧
  ((0 < pending_rows (db s))%nat → length (in_flight s) = 3%nat).
Proof.
  intros Hs Hl.
  assert (length (pool s) = 3%nat) as Hlen.
  { destruct Hs as (now & es & ->). clear Hl. revert es.
    apply (rev_ind (λ es, length (pool (steps _ es)) = 3%nat)); [done|].
    intros e es IH. rewrite steps_app. unfold steps at 1. cbn [foldl].
    by rewrite step_pool_length. }
  destruct (reachable_sound s Hs) as [_ _ Hlv].
  destruct (reachable_tidy s Hs) as [_ Hd _ _].
  destruct (Hlv Hl) as [Hk Hne]. split; [done|]. split; [done|].
  intros Hpos. unfold in_flight. rewrite flights_all; [done..|].
  intros Hin. specialize (Hd Hin). lia.
Qed.

End AnyZone.

(** The examples that follow run in a process under UTC. *)
#[local] Existing Instance utc.

(** Job 1 closes with code 0 at time 1; four more closes and a signal
    later its row is what it was. *)
Lemma settled_rows_stay_witness :
  let s := steps (main 0) [(1, Child 0 (Close (Some 0)))] in
  let r := mkJob 1 "echo" ["Hello, World!"%string] done (Some 0) (Some 1)
                 (Some ""%string) (Some ""%string) in
  (reachable s ∧ db s !! 0%nat = Some r) ∧
  db (steps s [(2, Child 1 (Close None)); (3, Child 0 (Close (Some 2)));
               (4, Signal SIGINT)]) !! 0%nat = Some r.
Proof.
  intros s r.
  assert (reachable s) as Hs by by exists 0, [(1, Child 0 (Close (Some 0)))].
  assert (db s !! 0%nat = Some r) as Hi by by vm_compute.
  split; [by split|].
  destruct (settled_rows_stay s
              [(2, Child 1 (Close None)); (3, Child 0 (Close (Some 2)));
               (4, Signal SIGINT)] 0%nat r Hs Hi)
    as (r' & Hi' & _ & _ & Hterm).
  rewrite Hi'. f_equal. apply Hterm. by left.
Defined.

Lemma workers_busy_while_pending_witness :
  let s := steps (main 0) [(1, Child 0 (Close (Some 0)))] in
  (reachable s ∧ outcome s = Live) ∧
  pending_rows (db s) = 1%nat ∧ length (in_flight s) = 3%nat.
Proof.
  intros s.
  assert (reachable s) as Hs by by exists 0, [(1, Child 0 (Close (Some 0)))].
  assert (outcome s = Live) as Hl by by vm_compute.
  assert (pending_rows (db s) = 1%nat) as Hp by by vm_compute.
  split; [by split|]. split; [exact Hp|].
  apply (proj2 (proj2 (workers_busy_while_pending s Hs Hl))).
  rewrite Hp. lia.
Defined.

End RowHistory.
